(** * Dakara server: the song search query language and its use by the song list view

    Embedding of [library/query_language.py] (the tokenizer [split_remaining],
    the keyword pattern [LANGUAGE_MATCHER] and the parser [parse]) and of the
    search part of [SongListView.get_queryset] in [library/views.py].

    A Python [str] is a sequence of Unicode code points; it is modelled as a
    list of code points ([N]).  The few facts of the Unicode character
    database that the code depends on for non-ASCII code points (which of them
    are alphanumeric, what [str.lower] maps them to) are not part of the
    repository and are parameters of the development.

    The dictionary of [parse] is a finite map from strings to lists of
    strings.  Exceptions are outcomes.  The [while True] loop of [parse] runs
    on a counter of turns, shown below to be large enough.  The regular
    expression is a syntax tree run by a backtracking matcher that tries the
    alternatives in the order of the [re] module.  A Django query set is the
    list of the calls made on it, and a [Q] object a formula over lookups. *)

From stdpp Require Import base list strings gmap.
From Stdlib Require Import NArith.

Local Open Scope N_scope.

(** ** Python strings *)

Abbreviation pystr := (list N).

(** A string literal of the source, as code points (ASCII literals only). *)
Definition py (s : string) : pystr :=
  (λ a, Ascii.N_of_ascii a) <$> String.list_ascii_of_string s.

(** [str.isspace] on one code point; also the class [\s] of [re] and the
    characters removed by [str.strip]. *)
Definition isspace (c : N) : bool :=
  ((9 <=? c) && (c <=? 13)) || ((28 <=? c) && (c <=? 32))
  || (c =? 133) || (c =? 160) || (c =? 5760)
  || ((8192 <=? c) && (c <=? 8202))
  || (c =? 8232) || (c =? 8233) || (c =? 8239) || (c =? 8287) || (c =? 12288).

Fixpoint lstrip (s : pystr) : pystr :=
  match s with
  | c :: t => if isspace c then lstrip t else s
  | [] => []
  end.

Definition rstrip (s : pystr) : pystr := reverse (lstrip (reverse s)).

(** [s.strip()] *)
Definition strip (s : pystr) : pystr := rstrip (lstrip s).

(** Truth value of a string: [if s:] *)
Definition truthy (s : pystr) : bool :=
  match s with [] => false | _ => true end.

(** [s.replace(c, empty)]: every occurrence of the character [c] removed *)
Definition remove_char (c : N) (s : pystr) : pystr :=
  filter (λ x, x ≠ c) s.

Definition QUOTE : N := 34.
Definition SPACE : N := 32.
Definition BACKSLASH : N := 92.
Definition COLON : N := 58.

(** The one-character string holding a double quote. *)
Definition dq : pystr := [QUOTE].

(** ** The free-text tokenizer [split_remaining] *)

(** The local variables of [split_remaining]. [previous_char] starts as the
    empty string, which is [None] here. *)
Record tokenizer := {
  tk_result : list pystr;
  current_expression : pystr;
  in_quotes : bool;
  previous_char : option N;
}.

(** [if current_expression: result.append(current_expression)] *)
Definition flush (e : pystr) (result : list pystr) : list pystr :=
  if truthy e then result ++ [e] else result.

(** One turn of the [for char in string] loop. *)
Definition tokenizer_step (t : tokenizer) (char : N) : tokenizer :=
  if char =? QUOTE then
    if in_quotes t then
      {| tk_result := flush (current_expression t) (tk_result t);
         current_expression := [];
         in_quotes := false;
         previous_char := Some char |}
    else
      {| tk_result := flush (strip (current_expression t)) (tk_result t);
         current_expression := [];
         in_quotes := true;
         previous_char := Some char |}
  else if (char =? SPACE) && negb (in_quotes t)
          && negb (bool_decide (previous_char t = Some BACKSLASH)) then
    {| tk_result := flush (strip (current_expression t)) (tk_result t);
       current_expression := [];
       in_quotes := in_quotes t;
       previous_char := Some char |}
  else if negb (char =? BACKSLASH) then
    {| tk_result := tk_result t;
       current_expression := current_expression t ++ [char];
       in_quotes := in_quotes t;
       previous_char := Some char |}
  else
    {| tk_result := tk_result t;
       current_expression := current_expression t;
       in_quotes := in_quotes t;
       previous_char := Some char |}.

Definition tokenizer_init : tokenizer :=
  {| tk_result := []; current_expression := []; in_quotes := false;
     previous_char := None |}.

Definition split_remaining (string : pystr) : list pystr :=
  let t := foldl tokenizer_step tokenizer_init string in
  flush (strip (current_expression t)) (tk_result t).

(** ** Regular expressions, as far as [LANGUAGE_MATCHER] uses them *)

(** The part of the Unicode character database that the code consults on
    non-ASCII code points. *)
Record unicode_db := {
  uni_isalnum : N → bool;   (* str.isalnum, for the class of word characters *)
  uni_lower : N → pystr;    (* str.lower of a one-character string *)
}.

Inductive regex :=
  | Eps                       (* the empty pattern *)
  | Lit (c : N)               (* a literal character *)
  | AnyChar                   (* [.] *)
  | Space                     (* [\s] *)
  | NotSpace                  (* [\S] *)
  | Boundary                  (* [\b] *)
  | Cat (r1 r2 : regex)       (* r1 r2 *)
  | Alt (r1 r2 : regex)       (* r1|r2 *)
  | Opt (r : regex)           (* r? *)
  | Plus (r : regex)          (* r+ *)
  | PlusLazy (r : regex)      (* r+? *)
  | Group (i : nat) (r : regex).  (* capturing group number i, from 1 *)

(** A position of the matcher in the subject: the character before it, the
    text from it on, and the groups captured so far (group [i] at index
    [i - 1]; [None] for a group that took no part). *)
Record mstate := {
  m_prev : option N;
  m_rest : pystr;
  m_groups : list (option pystr);
}.

Definition is_ascii_lower (c : N) : bool := (97 <=? c) && (c <=? 122).
Definition is_ascii_upper (c : N) : bool := (65 <=? c) && (c <=? 90).
Definition is_ascii_digit (c : N) : bool := (48 <=? c) && (c <=? 57).

(** The code points that a literal ASCII character of a pattern matches under
    [re.I]: a letter matches both of its cases and the few non-ASCII
    characters that the engine folds to it (dotted capital I and dotless i for
    i, long s for s, the Kelvin sign for k); anything else matches itself. *)
Definition ignorecase_matches (p x : N) : bool :=
  let lo := if is_ascii_upper p then p + 32 else p in
  if is_ascii_lower lo then
    (x =? lo) || (x =? lo - 32)
    || ((lo =? 105) && ((x =? 304) || (x =? 305)))
    || ((lo =? 115) && (x =? 383))
    || ((lo =? 107) && (x =? 8490))
  else x =? p.

Section Matcher.
Context (U : unicode_db).
(** [ignorecase] is the flag [re.I] of the compiled pattern. *)
Context (ignorecase : bool).

(** The class [\w]: alphanumeric or underscore. *)
Definition is_word (c : N) : bool :=
  if c <? 128 then
    is_ascii_digit c || is_ascii_upper c || is_ascii_lower c || (c =? 95)
  else uni_isalnum U c.

Definition lit_matches (p x : N) : bool :=
  if ignorecase then ignorecase_matches p x else x =? p.

(** [\b]: exactly one of the characters around the position is a word
    character; the ends of the subject count as non-word. *)
Definition at_boundary (s : mstate) : bool :=
  let that := match m_prev s with Some c => is_word c | None => false end in
  let this := match m_rest s with c :: _ => is_word c | [] => false end in
  negb (eqb this that).

(** Consume one character that satisfies [p]. *)
Definition eat (p : N → bool) (k : mstate → option mstate) (s : mstate)
  : option mstate :=
  match m_rest s with
  | c :: t =>
      if p c then k {| m_prev := Some c; m_rest := t; m_groups := m_groups s |}
      else None
  | [] => None
  end.

(** [a or b] on match results: the first alternative that succeeds. *)
Definition orelse (a b : option mstate) : option mstate :=
  match a with Some m => Some m | None => b end.

Definition progressed (s s' : mstate) : bool :=
  (length (m_rest s') <? length (m_rest s))%nat.

(** Greedy [r+]: after one [r], more repetitions are tried before the
    rest of the pattern.  A repetition that consumed nothing is not
    repeated. [n] bounds the number of repetitions; the matcher passes the
    number of characters left plus one. *)
Definition repeat_greedy
    (body : (mstate → option mstate) → mstate → option mstate)
    (k : mstate → option mstate) : nat → mstate → option mstate :=
  fix go (n : nat) (s : mstate) : option mstate :=
    match n with
    | O => None
    | S n' =>
        body (λ s', if progressed s s' then orelse (go n' s') (k s')
                    else k s') s
    end.

(** Lazy [r+?]: after one [r], the rest of the pattern is tried before
    more repetitions. *)
Definition repeat_lazy
    (body : (mstate → option mstate) → mstate → option mstate)
    (k : mstate → option mstate) : nat → mstate → option mstate :=
  fix go (n : nat) (s : mstate) : option mstate :=
    match n with
    | O => None
    | S n' =>
        body (λ s', if progressed s s' then orelse (k s') (go n' s')
                    else k s') s
    end.

(** The text consumed between two positions of one subject. *)
Definition consumed (s s' : mstate) : pystr :=
  take (length (m_rest s) - length (m_rest s'))%nat (m_rest s).

Definition set_group (i : nat) (v : pystr) (s : mstate) : mstate :=
  {| m_prev := m_prev s; m_rest := m_rest s;
     m_groups := <[pred i := Some v]> (m_groups s) |}.

(** The backtracking matcher, in continuation-passing style: [rmatch r k s]
    matches [r] at [s] and hands every way of matching it, in the order of
    preference of the engine, to [k] until [k] succeeds. *)
Fixpoint rmatch (r : regex) (k : mstate → option mstate) (s : mstate)
  : option mstate :=
  match r with
  | Eps => k s
  | Lit c => eat (lit_matches c) k s
  | AnyChar => eat (λ x, negb (x =? 10)) k s
  | Space => eat isspace k s
  | NotSpace => eat (λ x, negb (isspace x)) k s
  | Boundary => if at_boundary s then k s else None
  | Cat r1 r2 => rmatch r1 (rmatch r2 k) s
  | Alt r1 r2 => orelse (rmatch r1 k s) (rmatch r2 k s)
  | Opt r1 => orelse (rmatch r1 k s) (k s)
  | Plus r1 => repeat_greedy (rmatch r1) k (S (length (m_rest s))) s
  | PlusLazy r1 => repeat_lazy (rmatch r1) k (S (length (m_rest s))) s
  | Group i r1 => rmatch r1 (λ s', k (set_group i (consumed s s') s')) s
  end.

(** The pattern tried at one position of the subject [before ++ rest]. *)
Definition match_at (groups : nat) (r : regex) (before rest : pystr)
  : option mstate :=
  rmatch r Some {| m_prev := last before; m_rest := rest;
                   m_groups := replicate groups None |}.

(** [pattern.search]: the leftmost position at which the pattern matches.
    Returns the text before the match and the final matcher state. *)
Fixpoint search_from (groups : nat) (r : regex) (before rest : pystr)
  : option (pystr * mstate) :=
  match match_at groups r before rest with
  | Some m => Some (before, m)
  | None =>
      match rest with
      | c :: t => search_from groups r (before ++ [c]) t
      | [] => None
      end
  end.

(** [pattern.split(string, maxsplit=1)]: the text before the first match,
    the groups of the match, the text after it; the whole string alone when
    there is no match. *)
Definition re_split1 (groups : nat) (r : regex) (string : pystr)
  : list (option pystr) :=
  match search_from groups r [] string with
  | None => [Some string]
  | Some (before, m) => Some before :: m_groups m ++ [Some (m_rest m)]
  end.
End Matcher.

(** The least number of characters that a match of a pattern consumes. *)
Fixpoint min_len (r : regex) : nat :=
  match r with
  | Eps | Boundary | Opt _ => 0
  | Lit _ | AnyChar | Space | NotSpace => 1
  | Cat r1 r2 => min_len r1 + min_len r2
  | Alt r1 r2 => min_len r1 `min` min_len r2
  | Plus r1 | PlusLazy r1 | Group _ r1 => min_len r1
  end.

(** From position [s] to position [m] the matcher went through at least [c]
    characters of one subject. *)
Definition advances (c : nat) (s m : mstate) : Prop :=
  ∃ x, m_rest s = x ++ m_rest m ∧ (c ≤ length x)%nat.

(** The numbers of the capturing groups of a pattern. *)
Fixpoint group_ids (r : regex) : list nat :=
  match r with
  | Eps | Lit _ | AnyChar | Space | NotSpace | Boundary => []
  | Cat r1 r2 | Alt r1 r2 => group_ids r1 ++ group_ids r2
  | Opt r1 | Plus r1 | PlusLazy r1 => group_ids r1
  | Group i r1 => i :: group_ids r1
  end.

(** From position [s] to position [s'] the matcher kept the number of
    groups, every group that was set is still set, and the groups other than
    those numbered in [ids] are unchanged. *)
Definition groups_kept (ids : list nat) (s s' : mstate) : Prop :=
  length (m_groups s') = length (m_groups s)
  ∧ (∀ j, (∃ v, m_groups s !! j = Some (Some v)) →
          ∃ v', m_groups s' !! j = Some (Some v'))
  ∧ ∀ j, (∀ i, i ∈ ids → pred i ≠ j) → m_groups s' !! j = m_groups s !! j.

(** A literal string, and the alternation of patterns joined with a bar. *)
Fixpoint lits (s : pystr) : regex :=
  match s with
  | [] => Eps
  | [c] => Lit c
  | c :: t => Cat (Lit c) (lits t)
  end.

Fixpoint alts (rs : list regex) : regex :=
  match rs with
  | [] => Eps
  | [r] => r
  | r :: rs' => Alt r (alts rs')
  end.

Fixpoint cats (rs : list regex) : regex :=
  match rs with
  | [] => Eps
  | [r] => r
  | r :: rs' => Cat r (cats rs')
  end.

(** ** The query language *)

Definition KEYWORDS : list pystr := [py "artist"; py "work"; py "title"].

(** The pattern of [LANGUAGE_MATCHER]: a word boundary, group 1 one of the
    keywords, a colon, an optional white space, then one of: group 2 between
    doubled double quotes, group 3 between double quotes, group 4 a run of
    escaped white spaces and non-space characters. *)
Definition LANGUAGE_MATCHER : regex :=
  cats [ Boundary;
         Group 1 (alts (lits <$> KEYWORDS));
         Lit COLON;
         Opt Space;
         alts [ cats [Lit QUOTE; Lit QUOTE; Group 2 (PlusLazy AnyChar);
                      Lit QUOTE; Lit QUOTE];
                cats [Lit QUOTE; Group 3 (PlusLazy AnyChar); Lit QUOTE];
                Group 4 (Plus (Alt (Cat (Lit BACKSLASH) Space) NotSpace)) ] ].

Inductive exn :=
  | ValueError (msg : string)
  | AttributeError (attr : string)   (* attribute looked up on None *)
  | KeyError (key : pystr).

(** The outcome of running a piece of the program: a value, an exception, or
    the loop counter of the model exhausted. *)
Inductive outcome (A : Type) :=
  | Return (a : A)
  | Raise (e : exn)
  | OutOfFuel.
Arguments Return {A} a.
Arguments Raise {A} e.
Arguments OutOfFuel {A}.

#[global] Instance exn_eq_dec : EqDecision exn.
Proof. solve_decision. Defined.

#[global] Instance outcome_eq_dec `{EqDecision A} : EqDecision (outcome A).
Proof. solve_decision. Defined.

Definition bind {A B} (x : outcome A) (f : A → outcome B) : outcome B :=
  match x with
  | Return a => f a
  | Raise e => Raise e
  | OutOfFuel => OutOfFuel
  end.

Notation "x ←! e ; k" := (bind e (λ x, k))
  (at level 100, e at next level, k at level 200, right associativity).

(** [d[key].extend(items)] *)
Definition dict_extend (key : pystr) (items : list pystr)
    (d : gmap pystr (list pystr)) : outcome (gmap pystr (list pystr)) :=
  match d !! key with
  | Some l => Return (<[key := l ++ items]> d)
  | None => Raise (KeyError key)
  end.

(** [d.get(key).append(item)]: [d.get] gives None for a missing key. *)
Definition dict_get_append (key : pystr) (item : pystr)
    (d : gmap pystr (list pystr)) : outcome (gmap pystr (list pystr)) :=
  match d !! key with
  | Some l => Return (<[key := l ++ [item]]> d)
  | None => Raise (AttributeError "append")
  end.

(** [a or b] on a group of a match and a string *)
Definition or_str (a : option pystr) (b : pystr) : pystr :=
  match a with
  | Some s => if truthy s then s else b
  | None => b
  end.

(** The dictionary that [parse] starts from. *)
Definition parse_init : gmap pystr (list pystr) :=
  <[py "remaining" := []]> (<[py "titles_exact" := []]> (<[py "titles" := []]>
  (<[py "works_exact" := []]> (<[py "works" := []]>
  (<[py "artists_exact" := []]> (<[py "artists" := []]> ∅)))))).

Section Parser.
Context (U : unicode_db).

(** [str.lower], character by character. (The one rule of [str.lower] that
    looks at the neighbours of a character is for the capital sigma, which
    the keyword group cannot match.) *)
Definition lower (s : pystr) : pystr :=
  s ≫= λ c, if c <? 128 then (if is_ascii_upper c then [c + 32] else [c])
            else uni_lower U c.

Definition LANGUAGE_MATCHER_split (query : pystr) : list (option pystr) :=
  re_split1 U true 4 LANGUAGE_MATCHER query.

(** One turn of the [while True] loop of [parse], from the current [query]
    and [result]: the new [result], with the new [query] when the loop goes
    on and [None] when it breaks. *)
Definition parse_turn (query : pystr) (result : gmap pystr (list pystr))
  : outcome (gmap pystr (list pystr) * option pystr) :=
  match LANGUAGE_MATCHER_split query with
  | [_] =>
      result ←! (if truthy query
                 then dict_extend (py "remaining")
                        (split_remaining query) result
                 else Return result);
      Return (result, None)
  | [Some split0; Some split1; split2; split3; split4; Some split5] =>
      let remaining := strip split0 in
      let target := lower (strip split1 ++ py "s") in
      let value_exact := strip (or_str split2 []) in
      let value :=
        strip (remove_char BACKSLASH (or_str split3 (or_str split4 []))) in
      result ←! (if truthy remaining
                 then dict_extend (py "remaining")
                        (split_remaining remaining) result
                 else Return result);
      result ←! (if truthy value && negb (truthy value_exact)
                 then dict_get_append target value result
                 else if truthy value_exact && negb (truthy value)
                 then dict_get_append (target ++ py "_exact")
                        value_exact result
                 else Raise (ValueError "Inconsistency"));
      Return (result, Some (strip split5))
  | _ => Raise (AttributeError "strip")
  end.

(** The loop; [fuel] bounds the number of turns. *)
Fixpoint parse_loop (fuel : nat) (query : pystr)
    (result : gmap pystr (list pystr)) : outcome (gmap pystr (list pystr)) :=
  match fuel with
  | O => OutOfFuel
  | S fuel' =>
      turn ←! parse_turn query result;
      match turn.2 with
      | None => Return turn.1
      | Some query' => parse_loop fuel' query' turn.1
      end
  end.

(** [parse(query)]. Every turn of the loop but the last shortens the query,
    so one more turn than the query has characters is enough. *)
Definition parse (query : pystr) : outcome (gmap pystr (list pystr)) :=
  parse_loop (S (length query)) query parse_init.
End Parser.

(** A keyword pattern occurs in a query: the pattern matches at some
    position of it. *)
Definition keyword_occurs (U : unicode_db) (query : pystr) : Prop :=
  ∃ before rest, query = before ++ rest
    ∧ is_Some (match_at U true 4 LANGUAGE_MATCHER before rest).

(** Values of the Unicode character database on the code points below 256
    and on the four non-ASCII characters that [re.I] folds to ASCII letters;
    used to run the code on concrete strings. *)
Definition ucd : unicode_db :=
  {| uni_isalnum c :=
       (c =? 170) || ((178 <=? c) && (c <=? 179)) || (c =? 181)
       || ((185 <=? c) && (c <=? 186)) || ((188 <=? c) && (c <=? 190))
       || ((192 <=? c) && (c <=? 214)) || ((216 <=? c) && (c <=? 246))
       || ((248 <=? c) && (c <=? 255))
       || (c =? 304) || (c =? 305) || (c =? 383) || (c =? 8490);
     uni_lower c :=
       if ((192 <=? c) && (c <=? 214)) || ((216 <=? c) && (c <=? 222))
       then [c + 32]
       else if c =? 304 then [105; 775]
       else if c =? 8490 then [107]
       else [c] |}.

(** ** The parsed query as a Python value *)

(** The Python values that a parsed query is made of. *)
#[warnings="-register-all"]
Inductive pyval :=
  | PyStr (s : pystr)
  | PyList (l : list pyval)
  | PyDict (items : list (pystr * pyval)).

(** The dictionary returned by [parse], as a value; the order of the items
    is immaterial. *)
Definition dict_value (d : gmap pystr (list pystr)) : pyval :=
  PyDict ((λ kv, (kv.1, PyList (PyStr <$> kv.2))) <$> map_to_list d).

(** A list of strings. *)
Definition is_str_list (v : pyval) : Prop :=
  ∃ l : list pystr, v = PyList (PyStr <$> l).

(** A record with the two entries contains and exact, lists of strings. *)
Definition is_terms_record (v : pyval) : Prop :=
  ∃ items, v = PyDict items ∧ NoDup items.*1
    ∧ (∀ k, k ∈ items.*1 ↔ k ∈ [py "contains"; py "exact"])
    ∧ ∀ k x, (k, x) ∈ items → is_str_list x.

(** The nested shape: each of [categories] bound to a record of two lists,
    and remaining bound to a list of strings. *)
Definition nested_shape (categories : list pystr) (v : pyval) : Prop :=
  ∃ items, v = PyDict items ∧ NoDup items.*1
    ∧ (∀ k, k ∈ items.*1 ↔ k ∈ categories ++ [py "remaining"])
    ∧ ∀ k x, (k, x) ∈ items →
        if bool_decide (k = py "remaining") then is_str_list x
        else is_terms_record x.

(** The keys of the dictionary of [parse]. *)
Definition parse_keys : list pystr :=
  [py "artists"; py "artists_exact"; py "works"; py "works_exact";
   py "titles"; py "titles_exact"; py "remaining"].

(** The flat shape: each of [parse_keys] bound to a list of strings. *)
Definition flat_shape (v : pyval) : Prop :=
  ∃ items, v = PyDict items ∧ NoDup items.*1
    ∧ (∀ k, k ∈ items.*1 ↔ k ∈ parse_keys)
    ∧ ∀ k x, (k, x) ∈ items → is_str_list x.

(** ** The song list view *)

(** A Django [Q] object: a condition on one lookup, or a combination. *)
Inductive Q :=
  | Q_empty                                (* Q() *)
  | Q_kw (lookup : string) (value : pystr) (* Q(lookup=value) *)
  | Q_or (a b : Q)
  | Q_and (a b : Q).

#[global] Instance Q_eq_dec : EqDecision Q.
Proof. solve_decision. Defined.

Definition Q_is_empty (q : Q) : bool :=
  match q with Q_empty => true | _ => false end.

(** [self & other] and [self | other]: an empty operand is ignored. *)
Definition Q_combine (conn : Q → Q → Q) (self other : Q) : Q :=
  if Q_is_empty other then self
  else if Q_is_empty self then other
  else conn self other.

Infix "&&&" := (Q_combine Q_and) (at level 40, left associativity).
Infix "|||" := (Q_combine Q_or) (at level 50, left associativity).

(** A query set is the list of the calls made on [Song.objects.all()]. *)
Inductive qs_call :=
  | Exclude (lookup : string) (value : bool)
  | Filter (q : Q)
  | Distinct
  | OrderByLower (field : string).

#[global] Instance qs_call_eq_dec : EqDecision qs_call.
Proof. solve_decision. Defined.

(** The parsed query [res] that the view reads. The record has every key
    that the view reads: a result of the parser that lacks one, on which the
    view would raise, has no counterpart here. *)
Record terms := { contains : list pystr; exact : list pystr }.

Record parsed_query := {
  res_artist : terms;
  res_title : terms;
  res_work : terms;
  res_work_type : list (pystr * terms);   (* items of res[work_type] *)
  res_remaining : list pystr;
  res_tag : list pystr;
}.

(** The group of one free-text term. *)
Definition remaining_group (remain : pystr) : Q :=
  Q_kw "title__icontains" remain
  ||| Q_kw "artists__name__icontains" remain
  ||| Q_kw "works__title__icontains" remain
  ||| Q_kw "works__alternative_title__title__icontains" remain
  ||| Q_kw "version__icontains" remain
  ||| Q_kw "detail__icontains" remain
  ||| Q_kw "detail_video__icontains" remain.

Definition work_type_groups (item : pystr * terms) : list Q :=
  let '(query_name, search_keywords) := item in
  ((λ keyword,
     (Q_kw "works__title__icontains" keyword
      ||| Q_kw "works__alternative_title__title__icontains" keyword)
     &&& Q_kw "works__work_type__query_name" query_name)
   <$> contains search_keywords)
  ++
  ((λ keyword,
     (Q_kw "works__title__iexact" keyword
      ||| Q_kw "works__alternative_title__title__iexact" keyword)
     &&& Q_kw "works__work_type__query_name" query_name)
   <$> exact search_keywords).

(** The list [query_list] once all the loops of [get_queryset] have run. *)
Definition query_list (res : parsed_query) : list Q :=
  (Q_kw "title__icontains" <$> contains (res_title res))
  ++ (Q_kw "title__iexact" <$> exact (res_title res))
  ++ ((λ work, Q_kw "works__title__icontains" work
               ||| Q_kw "works__alternative_title__title__icontains" work)
      <$> contains (res_work res))
  ++ ((λ work, Q_kw "works__title__iexact" work
               ||| Q_kw "works__alternative_title__title__iexact" work)
      <$> exact (res_work res))
  ++ (res_work_type res ≫= work_type_groups)
  ++ (remaining_group <$> res_remaining res).

(** The list [query_list_many] once all the loops have run. *)
Definition query_list_many (res : parsed_query) : list Q :=
  (Q_kw "artists__name__icontains" <$> contains (res_artist res))
  ++ (Q_kw "artists__name__iexact" <$> exact (res_artist res))
  ++ (Q_kw "tags__name" <$> res_tag res).

(** [filter_query = Q()] followed by [filter_query &= item] for each item. *)
Definition filter_query (res : parsed_query) : Q :=
  foldl (λ filter_query item, filter_query &&& item) Q_empty (query_list res).

(** The filtering of [get_queryset] once the query is parsed: one call of
    [filter] with [filter_query], then one call for each item of
    [query_list_many]. *)
Definition search (res : parsed_query) (query_set : list qs_call)
  : list qs_call :=
  foldl (λ query_set item, query_set ++ [Filter item])
        (query_set ++ [Filter (filter_query res)])
        (query_list_many res).

(** [SongListView.get_queryset]. The class [QueryLanguageParser] is not in
    the sources; its method [parse] is the argument [language_parser_parse].
    The query set is returned; the assignment of the parsed query to
    [self.query_parsed], which does not bear on the filtering, is left out. *)
Definition get_queryset
    (language_parser_parse : pystr → outcome parsed_query)
    (is_superuser is_library_manager : bool)
    (query_params : gmap string pystr) : outcome (list qs_call) :=
  let query_set := [] in
  let query_set :=
    if negb (is_superuser || is_library_manager)
    then query_set ++ [Exclude "tags__disabled" true]
    else query_set in
  match query_params !! "query" with
  | None => Return (query_set ++ [OrderByLower "title"])
  | Some query =>
      query_set ←! (if truthy query
                    then res ←! language_parser_parse query;
                         Return (search res query_set)
                    else Return query_set);
      Return (query_set ++ [Distinct; OrderByLower "title"])
  end.

(** The conditions of the [filter] calls of a query set, in order. *)
Definition filters (query_set : list qs_call) : list Q :=
  query_set ≫= λ c, match c with Filter q => [q] | _ => [] end.

(** Truth of a condition on one row, given the truth of each lookup. *)
Fixpoint Q_holds (row : string → pystr → bool) (q : Q) : bool :=
  match q with
  | Q_empty => true
  | Q_kw lookup value => row lookup value
  | Q_or a b => Q_holds row a || Q_holds row b
  | Q_and a b => Q_holds row a && Q_holds row b
  end.

(** The lookups through the many-to-many relations of a song that the view
    filters one term at a time: the names of its artists and of its tags. *)
Definition multi_valued_lookup (lookup : string) : bool :=
  bool_decide (lookup ∈ ["artists__name__icontains"; "artists__name__iexact";
                         "tags__name"]).

(** A condition reads the name of an artist or of a tag somewhere, whatever
    the connectives above the lookup. *)
Fixpoint touches_multi_valued (q : Q) : bool :=
  match q with
  | Q_empty => false
  | Q_kw lookup _ => multi_valued_lookup lookup
  | Q_or a b | Q_and a b => touches_multi_valued a || touches_multi_valued b
  end.

(** The number of conjuncts of a condition that read the name of an artist
    or of a tag, alone or in a disjunction: the predicates on these relations
    that one call of [filter] with the condition applies together. *)
Fixpoint multi_valued_groups (q : Q) : nat :=
  match q with
  | Q_and a b => multi_valued_groups a + multi_valued_groups b
  | Q_empty => 0
  | Q_kw _ _ | Q_or _ _ => if touches_multi_valued q then 1 else 0
  end.

(** The number of artist and tag terms of a parsed query. *)
Definition multi_valued_terms (res : parsed_query) : nat :=
  length (contains (res_artist res)) + length (exact (res_artist res))
  + length (res_tag res).

(** Modelled from the spec: the method [parse] of the class
    [QueryLanguageParser], which views.py calls and which is missing from the
    sources. The spec describes its result as the result of [parse] regrouped:
    each keyword category (artist, work, title) bound to its contains and
    exact lists, plus remaining; the keyword set is fixed to those three, no
    work type is declared and the parser produces no tag term. *)
Definition QueryLanguageParser_parse (U : unicode_db) (query : pystr)
  : outcome parsed_query :=
  d ←! parse U query;
  let get key := default [] (d !! py key) in
  Return {| res_artist := {| contains := get "artists";
                             exact := get "artists_exact" |};
            res_title := {| contains := get "titles";
                            exact := get "titles_exact" |};
            res_work := {| contains := get "works";
                           exact := get "works_exact" |};
            res_work_type := [];
            res_remaining := get "remaining";
            res_tag := [] |}.

(** The filter conditions that the end-to-end scenario of the
    specification expects for the query [ex_end_to_end] below: one group on
    the work title or alternative title, one pass on the artist name and one
    pass on the tag name. *)
Definition expected_end_to_end_filters : list Q :=
  [ Q_kw "works__title__iexact" (py "Opening Theme")
    ||| Q_kw "works__alternative_title__title__iexact" (py "Opening Theme");
    Q_kw "artists__name__icontains" (py "foo");
    Q_kw "tags__name__iexact" (py "favorite") ].

(** A parsed query with one title term and one free-text term. *)
Definition ex_title_and_free_text : parsed_query :=
  {| res_artist := {| contains := []; exact := [] |};
     res_title := {| contains := [py "t"]; exact := [] |};
     res_work := {| contains := []; exact := [] |};
     res_work_type := [];
     res_remaining := [py "a"];
     res_tag := [] |}.

(** A parsed query with two artist terms, a tag and a free-text term. *)
Definition ex_two_artists : parsed_query :=
  {| res_artist := {| contains := [py "a"]; exact := [py "b"] |};
     res_title := {| contains := []; exact := [] |};
     res_work := {| contains := []; exact := [] |};
     res_work_type := [];
     res_remaining := [py "c"];
     res_tag := [py "T"] |}.

(** A parsed query with two artist terms and two free-text terms. *)
Definition ex_two_artists_two_free_texts : parsed_query :=
  {| res_artist := {| contains := [py "x"; py "y"]; exact := [] |};
     res_title := {| contains := []; exact := [] |};
     res_work := {| contains := []; exact := [] |};
     res_work_type := [];
     res_remaining := [py "a"; py "b"];
     res_tag := [] |}.

(** The four non-ASCII characters that [re.I] takes for the ASCII letters
    i, s and k: the dotted capital I, the dotless i, the long s and the
    Kelvin sign. *)
Definition folds_to_ascii (c : N) : bool :=
  (c =? 304) || (c =? 305) || (c =? 383) || (c =? 8490).

(** The terms of a dictionary of [parse] are well formed: none is empty; the
    remaining tokens and the contains values hold no backslash; the values
    of the categories are stripped. *)
Definition well_formed_terms (d : gmap pystr (list pystr)) : Prop :=
  ∀ k l v, d !! k = Some l → v ∈ l →
    v ≠ []
    ∧ (k ∈ [py "artists"; py "works"; py "titles"; py "remaining"] →
       BACKSLASH ∉ v)
    ∧ (k ≠ py "remaining" → strip v = v).

(** The first keyword pattern of a query has a blank value: the one value
    group that is set holds a text that is empty once stripped (and, for the
    two groups of the contains values, rid of its backslashes). *)
Definition blank_value (U : unicode_db) (query : pystr) : Prop :=
  ∃ split0 split1 v split5,
    (LANGUAGE_MATCHER_split U query
     = [Some split0; Some split1; Some v; None; None; Some split5]
     ∧ strip v = [])
    ∨ (LANGUAGE_MATCHER_split U query
       = [Some split0; Some split1; None; Some v; None; Some split5]
       ∧ strip (remove_char BACKSLASH v) = [])
    ∨ (LANGUAGE_MATCHER_split U query
       = [Some split0; Some split1; None; None; Some v; Some split5]
       ∧ strip (remove_char BACKSLASH v) = []).

(** The last item of [LANGUAGE_MATCHER]: the three ways of writing a
    value. *)
Definition value_pattern : regex :=
  alts [ cats [Lit QUOTE; Lit QUOTE; Group 2 (PlusLazy AnyChar);
               Lit QUOTE; Lit QUOTE];
         cats [Lit QUOTE; Group 3 (PlusLazy AnyChar); Lit QUOTE];
         Group 4 (Plus (Alt (Cat (Lit BACKSLASH) Space) NotSpace)) ].

(** ** The artist list view and the work list view *)

(** [ArtistListView.get_queryset]: the calls made on [Artist.objects.all()],
    and the value of [self.query_parsed] at the end, the list bound to its
    one key remaining, or [None] when the attribute is left as [__init__] set
    it. The class [QueryLanguageParser] is not in the sources; its method
    [split_remaining] is the argument [QueryLanguageParser_split_remaining]. *)
Definition ArtistListView_get_queryset
    (QueryLanguageParser_split_remaining : pystr → outcome (list pystr))
    (query_params : gmap string pystr)
  : outcome (list qs_call * option (list pystr)) :=
  let query_set := [] in
  match query_params !! "query" with
  | None => Return (query_set ++ [OrderByLower "name"], None)
  | Some query =>
      state ←! (if truthy query
                then res ←! QueryLanguageParser_split_remaining query;
                     let query_list := Q_kw "name__icontains" <$> res in
                     let filter_query :=
                       foldl (λ filter_query item, filter_query &&& item)
                             Q_empty query_list in
                     Return (query_set ++ [Filter filter_query], Some res)
                else Return (query_set, None));
      Return (state.1 ++ [OrderByLower "name"], state.2)
  end.

(** The calls made on [Work.objects.all()]. *)
Inductive work_qs_call :=
  | WorkFilterKw (lookup : string) (value : pystr)  (* filter(lookup=value) *)
  | WorkFilter (q : Q)
  | WorkDistinct
  | WorkOrderByLower (fields : list string).

#[global] Instance work_qs_call_eq_dec : EqDecision work_qs_call.
Proof. solve_decision. Defined.

(** The group of one term in the work list view. *)
Definition work_group (remain : pystr) : Q :=
  Q_kw "title__icontains" remain
  ||| Q_kw "subtitle__icontains" remain
  ||| Q_kw "alternative_title__title__icontains" remain.

(** [WorkListView.get_queryset], in the same way. *)
Definition WorkListView_get_queryset
    (QueryLanguageParser_split_remaining : pystr → outcome (list pystr))
    (query_params : gmap string pystr)
  : outcome (list work_qs_call * option (list pystr)) :=
  let query_set := [] in
  let query_set :=
    match query_params !! "type" with
    | Some work_type =>
        if truthy work_type
        then query_set ++ [WorkFilterKw "work_type__query_name" work_type]
        else query_set
    | None => query_set
    end in
  match query_params !! "query" with
  | None => Return (query_set ++ [WorkOrderByLower ["title"; "subtitle"]],
                    None)
  | Some query =>
      state ←! (if truthy query
                then res ←! QueryLanguageParser_split_remaining query;
                     let query_list := work_group <$> res in
                     let filter_query :=
                       foldl (λ filter_query item, filter_query &&& item)
                             Q_empty query_list in
                     Return (query_set ++ [WorkFilter filter_query], Some res)
                else Return (query_set, None));
      Return (state.1 ++ [WorkDistinct; WorkOrderByLower ["title"; "subtitle"]],
              state.2)
  end.

(** A row of the works, its alternative titles joined, passes every call of
    a query set. *)
Definition work_passes (row : string → pystr → bool)
    (query_set : list work_qs_call) : bool :=
  forallb (λ c, match c with
                | WorkFilterKw lookup value => row lookup value
                | WorkFilter q => Q_holds row q
                | WorkDistinct | WorkOrderByLower _ => true
                end) query_set.

(** ** The playlist entries *)

(** A row of [PlaylistEntry], as far as the queries of the class read it:
    the primary key, the duration of the song, the two dates as numbers on
    one time line, and [date_play], the attribute that
    [get_playlist_with_date] sets on the entries it returns. *)
Record playlist_entry := {
  pk : N;
  song_duration : Z;
  date_created : Z;
  was_played : bool;
  date_played : option Z;
  date_play : option Z;
}.

(** The result of [get_playing]: its value, or the [RuntimeError]. *)
Inductive playing :=
  | Playing (entry : option playlist_entry)
  | RuntimeError (msg : string).

Section Playlist.
(** [order_by('date_created')]; the order of the rows with one date is up to
    the database. *)
Context (order_by_date_created : list playlist_entry → list playlist_entry).

(** [PlaylistEntry.get_playing], on the rows [objects] of the table. *)
Definition get_playing (objects : list playlist_entry) : playing :=
  let playlist :=
    order_by_date_created
      (filter (λ e, was_played e = false ∧ date_played e = None) objects) in
  match playlist with
  | [] => Playing None
  | _ =>
      if (1 <? length playlist)%nat
      then RuntimeError "It seems that two entries are playing at the same time"
      else Playing (head playlist)
  end.

(** [PlaylistEntry.get_playlist] *)
Definition get_playlist (objects : list playlist_entry)
  : list playlist_entry :=
  order_by_date_created
    (filter (λ e, ¬ (was_played e = true ∨ is_Some (date_played e))) objects).

(** [PlaylistEntry.get_playlist_played] *)
Definition get_playlist_played (objects : list playlist_entry)
  : list playlist_entry :=
  order_by_date_created
    (filter (λ e, was_played e = true ∧ is_Some (date_played e)) objects).



End Playlist.


(** ** The pool of the player errors *)

Record player_error := {
  error_id : N;
  error_song : pystr;
  error_message : pystr;
}.

(** The list objects that the pools refer to, by address. *)
Abbreviation list_store := (gmap nat (list N)).

(** The address of the list that is the default value of the parameter
    [ids_pool] of [PlayerErrorsPool.__init__]. Python makes this list once,
    when the [def] statement runs, and binds the parameter to that one object
    at every call that does not give the argument. *)
Definition DEFAULT_IDS_POOL : nat := 0.

(** An instance of [PlayerErrorsPool]. [ids_pool] refers to a list of the
    store; [temp_pool] is a list of the instance's own. *)
Record errors_pool := {
  ids_pool : nat;
  count : N;
  temp_pool : list player_error;
}.

(** [PlayerErrorsPool(ids_pool, count)]; [None] for an argument that is not
    given. *)
Definition PlayerErrorsPool_init (ids_pool_arg : option nat)
    (count_arg : option N) : errors_pool :=
  {| ids_pool := default DEFAULT_IDS_POOL ids_pool_arg;
     count := default 0 count_arg;
     temp_pool := [] |}.

(** [self.add(song, error_message)] *)
Definition PlayerErrorsPool_add (self : errors_pool)
    (song error_message : pystr) (store : list_store)
  : errors_pool * list_store :=
  let error := {| error_id := count self; error_song := song;
                  error_message := error_message |} in
  ({| ids_pool := ids_pool self;
      count := count self + 1;
      temp_pool := temp_pool self ++ [error] |},
   <[ids_pool self := default [] (store !! ids_pool self) ++ [count self]]>
     store).

(** Some calls of [add] in a row on one pool. *)
Definition PlayerErrorsPool_add_all (self : errors_pool)
    (errors : list (pystr * pystr)) (store : list_store)
  : errors_pool * list_store :=
  foldl (λ state error,
           PlayerErrorsPool_add state.1 error.1 error.2 state.2)
        (self, store) errors.

(** The queries of the examples. *)
Definition ex_quoted_keyword : pystr := dq ++ py "artist:foo" ++ dq.

Definition ex_blank_quoted : pystr := py "artist:" ++ dq ++ py " " ++ dq.

Definition ex_blank_exact : pystr :=
  py "artist:" ++ dq ++ dq ++ py " " ++ dq ++ dq.

Definition ex_artist_title : pystr :=
  py "artist:Foo title:" ++ dq ++ py "Bar Baz" ++ dq.

Definition ex_end_to_end : pystr :=
  py "work:" ++ dq ++ dq ++ py "Opening Theme" ++ dq ++ dq
  ++ py " artist:foo tag:favorite".

(** * Properties *)

(** Equalities between closed terms are decided by evaluation. *)
Ltac run :=
  repeat split;
  match goal with
  | |- ?a = ?b => apply (bool_decide_unpack (a = b)); vm_compute; exact I
  end.

(** ** Running the parser on concrete queries *)

Example parse_artist_title :
  parse ucd ex_artist_title
  = Return (<[py "artists" := [py "Foo"]]>
           (<[py "titles" := [py "Bar Baz"]]> parse_init)).
Proof. run. Qed.

Example parse_escaped_space :
  parse ucd (py "hello\ world artist:Foo")
  = Return (<[py "remaining" := [py "hello world"]]>
           (<[py "artists" := [py "Foo"]]> parse_init)).
Proof. run. Qed.

Example parse_exact_title :
  parse ucd (py "title:" ++ dq ++ dq ++ py " Bar Baz " ++ dq ++ dq)
  = Return (<[py "titles_exact" := [py "Bar Baz"]]> parse_init).
Proof. run. Qed.

(** A keyword written with a dotted capital I matches under [re.I], but the
    lower-cased name is then no key of the dictionary: [parse] raises the
    attribute fault of appending to None. *)
Example parse_dotted_capital_i_raises :
  LANGUAGE_MATCHER_split ucd (py "art" ++ [304] ++ py "st:x")
  = [Some []; Some (py "art" ++ [304] ++ py "st"); None; None; Some (py "x");
     Some []]
  ∧ parse ucd (py "art" ++ [304] ++ py "st:x")
    = Raise (AttributeError "append").
Proof. run. Qed.

(** C10. Double quotes do not shield a keyword: in the query made of a double
    quote, artist:foo and a double quote, the tokenizer alone sees the single
    token artist:foo, yet [parse] takes the keyword term out, into the list
    of artists to match partially, and leaves no remaining token. *)
Theorem quotes_do_not_shield_keywords :
  ∃ query : pystr,
    split_remaining query = [py "artist:foo"]
    ∧ ∀ U : unicode_db,
        LANGUAGE_MATCHER_split U query
        = [Some dq; Some (py "artist"); None; None; Some (py "foo" ++ dq);
           Some []]
        ∧ parse U query
          = Return (<[py "artists" := [py "foo" ++ dq]]> parse_init).
Proof. exists ex_quoted_keyword. split; [run|]. intros U. run. Qed.

(** C3. On the query artist: followed by a blank between double quotes the
    pattern matches with group 3 holding the blank; both the contains value
    and the exact value are then empty and [parse] raises the inconsistency
    fault. *)
Theorem parse_blank_value_raises (U : unicode_db) :
  LANGUAGE_MATCHER_split U ex_blank_quoted
  = [Some []; Some (py "artist"); None; Some (py " "); None; Some []]
  ∧ parse U ex_blank_quoted = Raise (ValueError "Inconsistency").
Proof. run. Qed.

(** C4. On the query artist: followed by a blank between doubled double
    quotes the pattern matches with group 2, the doubled quote group, holding
    the blank; nothing is appended to the list of exact artists: [parse]
    raises the inconsistency fault. *)
Theorem parse_blank_exact_value_raises (U : unicode_db) :
  LANGUAGE_MATCHER_split U ex_blank_exact
  = [Some []; Some (py "artist"); Some (py " "); None; None; Some []]
  ∧ parse U ex_blank_exact = Raise (ValueError "Inconsistency").
Proof. run. Qed.

(** ** Strings *)

Local Open Scope nat_scope.

Lemma lstrip_suffix (s : pystr) : lstrip s `suffix_of` s.
Proof.
  induction s as [|c t IH]; simpl; [done|].
  destruct (isspace c); [by apply suffix_cons_r | done].
Qed.

Lemma lstrip_length (s : pystr) : length (lstrip s) ≤ length s.
Proof. apply suffix_length, lstrip_suffix. Qed.

Lemma strip_length (s : pystr) : length (strip s) ≤ length s.
Proof.
  unfold strip, rstrip. rewrite length_reverse.
  etrans; [apply lstrip_length|]. rewrite length_reverse. apply lstrip_length.
Qed.

Lemma lstrip_no_space (s : pystr) :
  Forall (λ c, isspace c = false) s → lstrip s = s.
Proof. destruct 1 as [|c t Hc]; simpl; [done|]. by rewrite Hc. Qed.

Lemma strip_no_space (s : pystr) :
  Forall (λ c, isspace c = false) s → strip s = s.
Proof.
  intros H. unfold strip, rstrip. rewrite (lstrip_no_space s H).
  rewrite lstrip_no_space; [apply reverse_involutive|].
  by apply Forall_reverse.
Qed.

(** ** The matcher *)

Section MatcherFacts.
Context (U : unicode_db) (ic : bool).

Lemma eat_Some p k s m :
  eat p k s = Some m →
  ∃ c t, m_rest s = c :: t ∧ p c = true
    ∧ k {| m_prev := Some c; m_rest := t; m_groups := m_groups s |} = Some m.
Proof.
  unfold eat. destruct (m_rest s) as [|c t]; [done|].
  destruct (p c) eqn:Hp; [|done]. eauto.
Qed.

Lemma orelse_Some a b m : orelse a b = Some m → a = Some m ∨ b = Some m.
Proof. destruct a; simpl; auto. Qed.

Lemma advances_weaken c c' s m : c' ≤ c → advances c s m → advances c' s m.
Proof. intros ? (x & ? & ?). exists x. split; [done | lia]. Qed.

Lemma advances_eat c ch t g s m :
  m_rest s = ch :: t →
  advances c {| m_prev := Some ch; m_rest := t; m_groups := g |} m →
  advances (c + 1) s m.
Proof.
  intros Hs (x & Hx & ?). simpl in Hx. exists (ch :: x). split.
  - by rewrite Hs, Hx.
  - simpl. lia.
Qed.

Lemma repeat_greedy_advances body k c d n s m :
  (∀ k' c' s' m',
     (∀ s'' m'', k' s'' = Some m'' → advances c' s'' m'') →
     body k' s' = Some m' → advances (c' + d) s' m') →
  (∀ s' m', k s' = Some m' → advances c s' m') →
  repeat_greedy body k n s = Some m → advances (c + d) s m.
Proof.
  intros Hbody Hk. revert s m.
  induction n as [|n IH]; intros s m; simpl; [done|].
  intros H. apply (Hbody _ c) in H; [done|].
  intros s' m' H'. destruct (progressed s s').
  - apply orelse_Some in H' as [H'|H']; [|by apply Hk].
    eapply advances_weaken; [|by apply IH]. lia.
  - by apply Hk.
Qed.

Lemma repeat_lazy_advances body k c d n s m :
  (∀ k' c' s' m',
     (∀ s'' m'', k' s'' = Some m'' → advances c' s'' m'') →
     body k' s' = Some m' → advances (c' + d) s' m') →
  (∀ s' m', k s' = Some m' → advances c s' m') →
  repeat_lazy body k n s = Some m → advances (c + d) s m.
Proof.
  intros Hbody Hk. revert s m.
  induction n as [|n IH]; intros s m; simpl; [done|].
  intros H. apply (Hbody _ c) in H; [done|].
  intros s' m' H'. destruct (progressed s s').
  - apply orelse_Some in H' as [H'|H']; [by apply Hk|].
    eapply advances_weaken; [|by apply IH]. lia.
  - by apply Hk.
Qed.

(** Whatever the rest of the pattern consumes, a match of [r] consumes at
    least [min_len r] characters more, and ends inside the subject. *)
Lemma rmatch_advances r : ∀ k c s m,
  (∀ s' m', k s' = Some m' → advances c s' m') →
  rmatch U ic r k s = Some m → advances (c + min_len r) s m.
Proof.
  induction r as [|p| | | | |r1 IH1 r2 IH2|r1 IH1 r2 IH2|r1 IH1|r1 IH1|r1 IH1
                  |i r1 IH1]; intros k c s m Hk H; simpl in *.
  - rewrite Nat.add_0_r. by apply Hk.
  - apply eat_Some in H as (ch & t & Hs & _ & H). eauto using advances_eat.
  - apply eat_Some in H as (ch & t & Hs & _ & H). eauto using advances_eat.
  - apply eat_Some in H as (ch & t & Hs & _ & H). eauto using advances_eat.
  - apply eat_Some in H as (ch & t & Hs & _ & H). eauto using advances_eat.
  - rewrite Nat.add_0_r. destruct (at_boundary U s); [by apply Hk | done].
  - apply (IH1 _ (c + min_len r2)) in H.
    + eapply advances_weaken; [|done]. lia.
    + intros s' m'. by apply IH2.
  - apply orelse_Some in H as [H|H].
    + apply (IH1 _ c) in H; [|done]. eapply advances_weaken; [|done]. lia.
    + apply (IH2 _ c) in H; [|done]. eapply advances_weaken; [|done]. lia.
  - rewrite Nat.add_0_r. apply orelse_Some in H as [H|H]; [|by apply Hk].
    apply (IH1 _ c) in H; [|done]. eapply advances_weaken; [|done]. lia.
  - refine (repeat_greedy_advances (rmatch U ic r1) k c _
              (S (length (m_rest s))) s m _ Hk H).
    intros k' c'. apply IH1.
  - refine (repeat_lazy_advances (rmatch U ic r1) k c _
              (S (length (m_rest s))) s m _ Hk H).
    intros k' c'. apply IH1.
  - apply (IH1 _ c) in H; [done|]. intros s' m' H'. by apply Hk in H'.
Qed.

Lemma match_at_advances groups r before rest m :
  match_at U ic groups r before rest = Some m →
  ∃ matched, rest = matched ++ m_rest m ∧ min_len r ≤ length matched.
Proof.
  intros H. apply (rmatch_advances _ _ 0) in H; [done|].
  intros s' m' [= ->]. by exists [].
Qed.

(** [search_from] finds the first position at which the pattern matches. *)
Lemma search_from_Some groups r before rest b m :
  search_from U ic groups r before rest = Some (b, m) →
  ∃ skipped rest',
    b = before ++ skipped ∧ rest = skipped ++ rest'
    ∧ match_at U ic groups r b rest' = Some m
    ∧ ∀ s1 s2, skipped = s1 ++ s2 → s2 ≠ [] →
        match_at U ic groups r (before ++ s1) (s2 ++ rest') = None.
Proof.
  revert before. induction rest as [|c t IH]; intros before; simpl.
  - destruct (match_at _ _ _ _ before []) eqn:Hm; [|done].
    intros [= <- <-]. exists [], []. rewrite app_nil_r.
    split_and!; [done..|]. intros s1 s2 Hs ?.
    symmetry in Hs. by apply app_eq_nil in Hs as [_ ?].
  - destruct (match_at _ _ _ _ before (c :: t)) eqn:Hm.
    + intros [= <- <-]. exists [], (c :: t). rewrite app_nil_r.
      split_and!; [done..|]. intros s1 s2 Hs ?.
      symmetry in Hs. by apply app_eq_nil in Hs as [_ ?].
    + intros H. apply IH in H as (sk & rest' & -> & -> & Hat & Hfirst).
      exists (c :: sk), rest'. rewrite <-(assoc_L (++)) in *. simpl in *.
      split_and!; [done..|]. intros [|c' s1] s2 Hs Hs2; simpl in *.
      * subst s2. by rewrite app_nil_r.
      * injection Hs as <- ->.
        specialize (Hfirst s1 s2 eq_refl Hs2).
        by rewrite <-(assoc_L (++)) in Hfirst.
Qed.

Lemma search_from_None groups r before rest :
  search_from U ic groups r before rest = None →
  ∀ s1 s2, rest = s1 ++ s2 →
    match_at U ic groups r (before ++ s1) s2 = None.
Proof.
  revert before. induction rest as [|c t IH]; intros before; simpl.
  - destruct (match_at _ _ _ _ before []) eqn:Hm; [done|].
    intros _ s1 s2 Hs. symmetry in Hs. apply app_eq_nil in Hs as [-> ->].
    by rewrite app_nil_r.
  - destruct (match_at _ _ _ _ before (c :: t)) eqn:Hm; [done|].
    intros H [|c' s1] s2 Hs; simpl in *.
    + subst s2. by rewrite app_nil_r.
    + injection Hs as <- ->. specialize (IH _ H s1 s2 eq_refl).
      by rewrite <-(assoc_L (++)) in IH.
Qed.
Lemma repeat_greedy_ext body k k' : ∀ n s,
  (∀ k1 k2 s1,
     (∀ s', length (m_rest s') ≤ length (m_rest s1) → k1 s' = k2 s') →
     body k1 s1 = body k2 s1) →
  (∀ s', length (m_rest s') ≤ length (m_rest s) → k s' = k' s') →
  repeat_greedy body k n s = repeat_greedy body k' n s.
Proof.
  induction n as [|n IH]; intros s Hbody Hk; simpl; [done|].
  apply Hbody. intros s' Hs'. rewrite (Hk s') by done.
  destruct (progressed s s'); [|done].
  f_equal. apply IH; [done|]. intros s'' Hs''. apply Hk. lia.
Qed.

Lemma repeat_lazy_ext body k k' : ∀ n s,
  (∀ k1 k2 s1,
     (∀ s', length (m_rest s') ≤ length (m_rest s1) → k1 s' = k2 s') →
     body k1 s1 = body k2 s1) →
  (∀ s', length (m_rest s') ≤ length (m_rest s) → k s' = k' s') →
  repeat_lazy body k n s = repeat_lazy body k' n s.
Proof.
  induction n as [|n IH]; intros s Hbody Hk; simpl; [done|].
  apply Hbody. intros s' Hs'. rewrite (Hk s') by done.
  destruct (progressed s s'); [|done].
  f_equal. apply IH; [done|]. intros s'' Hs''. apply Hk. lia.
Qed.

(** The matcher looks at its continuation only at positions that are not
    before the current one. *)
Lemma rmatch_ext r : ∀ k k' s,
  (∀ s', length (m_rest s') ≤ length (m_rest s) → k s' = k' s') →
  rmatch U ic r k s = rmatch U ic r k' s.
Proof.
  assert (Heat : ∀ p k k' s,
    (∀ s', length (m_rest s') ≤ length (m_rest s) → k s' = k' s') →
    eat p k s = eat p k' s).
  { intros p k k' s Hk. unfold eat. destruct (m_rest s) as [|c t] eqn:Hs;
      [done|]. destruct (p c); [|done]. apply Hk. simpl. lia. }
  induction r as [|p| | | | |r1 IH1 r2 IH2|r1 IH1 r2 IH2|r1 IH1|r1 IH1|r1 IH1
                  |i r1 IH1]; intros k k' s Hk;
    cbn [rmatch].
  - by apply Hk.
  - by apply Heat.
  - by apply Heat.
  - by apply Heat.
  - by apply Heat.
  - destruct (at_boundary U s); [by apply Hk | done].
  - apply IH1. intros s' Hs'. apply IH2. intros s'' Hs''. apply Hk. lia.
  - by rewrite (IH1 k k'), (IH2 k k').
  - rewrite (IH1 k k') by done. by rewrite Hk.
  - by apply repeat_greedy_ext.
  - by apply repeat_lazy_ext.
  - apply IH1. intros s' Hs'. by apply Hk.
Qed.

(** The bound on the repetitions is no restriction: a repetition gives the
    same result with any bound above the number of characters left. *)
Lemma repeat_greedy_bound r k : ∀ n n' s,
  length (m_rest s) < n → length (m_rest s) < n' →
  repeat_greedy (rmatch U ic r) k n s = repeat_greedy (rmatch U ic r) k n' s.
Proof.
  induction n as [|n IH]; intros [|n'] s Hn Hn'; try lia. simpl.
  apply rmatch_ext. intros s' Hs'. unfold progressed.
  destruct (Nat.ltb_spec (length (m_rest s')) (length (m_rest s))); [|done].
  f_equal. apply IH; lia.
Qed.

Lemma repeat_lazy_bound r k : ∀ n n' s,
  length (m_rest s) < n → length (m_rest s) < n' →
  repeat_lazy (rmatch U ic r) k n s = repeat_lazy (rmatch U ic r) k n' s.
Proof.
  induction n as [|n IH]; intros [|n'] s Hn Hn'; try lia. simpl.
  apply rmatch_ext. intros s' Hs'. unfold progressed.
  destruct (Nat.ltb_spec (length (m_rest s')) (length (m_rest s))); [|done].
  f_equal. apply IH; lia.
Qed.

Lemma groups_kept_refl ids s : groups_kept ids s s.
Proof. by split_and!. Qed.

Lemma groups_kept_trans ids1 ids2 s1 s2 s3 :
  groups_kept ids1 s1 s2 → groups_kept ids2 s2 s3 →
  groups_kept (ids1 ++ ids2) s1 s3.
Proof.
  intros (H1 & H1' & H1'') (H2 & H2' & H2''). split_and!;
    [congruence | auto |].
  intros j Hj. rewrite H2'', H1''; [done|..];
    intros i Hi; apply Hj, elem_of_app; auto.
Qed.

Lemma groups_kept_mono ids ids' s s' :
  ids ⊆ ids' → groups_kept ids s s' → groups_kept ids' s s'.
Proof. intros Hsub (H1 & H2 & H3). split_and!; auto. Qed.

Lemma groups_kept_set_group i v s : groups_kept [i] s (set_group i v s).
Proof.
  split_and!; simpl; [apply length_insert| |].
  - intros j [w Hj]. destruct (decide (pred i = j)) as [<-|Hne].
    + exists v. apply list_lookup_insert_eq. by eapply lookup_lt_Some.
    + exists w. by rewrite list_lookup_insert_ne.
  - intros j Hj. apply list_lookup_insert_ne, Hj, list_elem_of_here.
Qed.

Lemma repeat_greedy_groups ids body k :
  (∀ k1 s1 m1, body k1 s1 = Some m1 →
     ∃ s', groups_kept ids s1 s' ∧ k1 s' = Some m1) →
  ∀ n s m, repeat_greedy body k n s = Some m →
    ∃ s', groups_kept ids s s' ∧ k s' = Some m.
Proof.
  intros Hbody. induction n as [|n IH]; intros s m H; simpl in H; [done|].
  apply Hbody in H as (s1 & ? & H). destruct (progressed s s1); [|by eauto].
  apply orelse_Some in H as [H|H]; [|by eauto].
  apply IH in H as (s2 & ? & H). exists s2. split; [|done].
  eapply groups_kept_mono; [|by eapply groups_kept_trans].
  intros i. rewrite elem_of_app. tauto.
Qed.

Lemma repeat_lazy_groups ids body k :
  (∀ k1 s1 m1, body k1 s1 = Some m1 →
     ∃ s', groups_kept ids s1 s' ∧ k1 s' = Some m1) →
  ∀ n s m, repeat_lazy body k n s = Some m →
    ∃ s', groups_kept ids s s' ∧ k s' = Some m.
Proof.
  intros Hbody. induction n as [|n IH]; intros s m H; simpl in H; [done|].
  apply Hbody in H as (s1 & ? & H). destruct (progressed s s1); [|by eauto].
  apply orelse_Some in H as [H|H]; [by eauto|].
  apply IH in H as (s2 & ? & H). exists s2. split; [|done].
  eapply groups_kept_mono; [|by eapply groups_kept_trans].
  intros i. rewrite elem_of_app. tauto.
Qed.

(** A match of [r] ends with the continuation succeeding at a position
    where the groups set before are still set and only groups of [r] have
    changed. *)
Lemma rmatch_groups r : ∀ k s m,
  rmatch U ic r k s = Some m →
  ∃ s', groups_kept (group_ids r) s s' ∧ k s' = Some m.
Proof.
  assert (Heat : ∀ p k s m,
    eat p k s = Some m → ∃ s', groups_kept [] s s' ∧ k s' = Some m).
  { intros p k s m (c & t & _ & _ & H)%eat_Some. eexists. split; [|done].
    by split_and!. }
  induction r as [|p| | | | |r1 IH1 r2 IH2|r1 IH1 r2 IH2|r1 IH1|r1 IH1|r1 IH1
                  |i r1 IH1]; intros k s m H; cbn [rmatch group_ids] in *.
  - eauto using groups_kept_refl.
  - by apply Heat in H.
  - by apply Heat in H.
  - by apply Heat in H.
  - by apply Heat in H.
  - destruct (at_boundary U s); [|done]. eauto using groups_kept_refl.
  - apply IH1 in H as (s1 & ? & H). apply IH2 in H as (s2 & ? & H).
    eauto using groups_kept_trans.
  - apply orelse_Some in H as [H|H].
    + apply IH1 in H as (s1 & ? & H). exists s1. split; [|done].
      eapply groups_kept_mono; [|done]. intros i. rewrite elem_of_app. tauto.
    + apply IH2 in H as (s1 & ? & H). exists s1. split; [|done].
      eapply groups_kept_mono; [|done]. intros i. rewrite elem_of_app. tauto.
  - apply orelse_Some in H as [H|H]; eauto using groups_kept_refl.
  - by apply (repeat_greedy_groups (group_ids r1)) in H.
  - by apply (repeat_lazy_groups (group_ids r1)) in H.
  - apply IH1 in H as (s1 & ? & H). eexists. split; [|done].
    eapply groups_kept_mono;
      [|eapply groups_kept_trans; [done|apply groups_kept_set_group]].
    intros j [?|Hj%list_elem_of_singleton]%elem_of_app;
      [by apply list_elem_of_further | subst j; apply list_elem_of_here].
Qed.
End MatcherFacts.

(** ** The loop of the parser *)

Section ParserFacts.
Context (U : unicode_db).

Lemma LANGUAGE_MATCHER_min_len : min_len LANGUAGE_MATCHER = 6.
Proof. reflexivity. Qed.

(** Without a keyword pattern the split is the query alone. *)
Lemma LANGUAGE_MATCHER_split_no_keyword query :
  ¬ keyword_occurs U query → LANGUAGE_MATCHER_split U query = [Some query].
Proof.
  intros Hno. unfold LANGUAGE_MATCHER_split, re_split1.
  destruct (search_from _ _ _ _ _ _) as [[b m]|] eqn:Hs; [|done].
  exfalso. apply Hno.
  apply search_from_Some in Hs as (sk & rest' & -> & -> & Hat & _).
  exists sk, rest'. split; [done|]. simpl in Hat. by rewrite Hat.
Qed.

(** A split around a match: the query is the text before, the match and
    the text after; the pattern matches at the end of the text before and
    at no earlier position; the match has six characters at least. *)
Lemma LANGUAGE_MATCHER_split_match query split0 split1 split2 split3 split4
    split5 :
  LANGUAGE_MATCHER_split U query
  = [Some split0; Some split1; split2; split3; split4; Some split5] →
  ∃ matched m,
    query = split0 ++ matched ++ split5
    ∧ 6 ≤ length matched
    ∧ match_at U true 4 LANGUAGE_MATCHER split0 (matched ++ split5) = Some m
    ∧ m_rest m = split5
    ∧ m_groups m = [Some split1; split2; split3; split4]
    ∧ ∀ s1 s2, split0 = s1 ++ s2 → s2 ≠ [] →
        match_at U true 4 LANGUAGE_MATCHER s1 (s2 ++ matched ++ split5)
        = None.
Proof.
  unfold LANGUAGE_MATCHER_split, re_split1.
  destruct (search_from _ _ _ _ _ _) as [[b m]|] eqn:Hs; [|done].
  intros [= -> Hg].
  change [Some split1; split2; split3; split4; Some split5]
    with ([Some split1; split2; split3; split4] ++ [Some split5]) in Hg.
  apply app_inj_tail in Hg as [Hg [= H5]].
  apply search_from_Some in Hs as (sk & rest' & Hb & -> & Hat & Hfirst).
  simpl in Hb. subst sk.
  destruct (match_at_advances _ _ _ _ _ _ _ Hat) as (matched & -> & Hlen).
  rewrite H5 in *. exists matched, m. split_and!; done.
Qed.

(** A match of the keyword pattern leaves four groups: the keyword, and
    exactly one of the three value groups. *)
Lemma LANGUAGE_MATCHER_groups before rest m :
  match_at U true 4 LANGUAGE_MATCHER before rest = Some m →
  ∃ kw v,
    m_groups m = [Some kw; Some v; None; None]
    ∨ m_groups m = [Some kw; None; Some v; None]
    ∨ m_groups m = [Some kw; None; None; Some v].
Proof.
  assert (∃ keyword dquoted quoted plain,
    LANGUAGE_MATCHER
    = Cat Boundary (Cat (Group 1 keyword) (Cat (Lit COLON) (Cat (Opt Space)
        (Alt (Cat (Lit QUOTE) (Cat (Lit QUOTE) (Cat (Group 2 dquoted)
                (Cat (Lit QUOTE) (Lit QUOTE)))))
        (Alt (Cat (Lit QUOTE) (Cat (Group 3 quoted) (Lit QUOTE)))
             (Group 4 plain))))))
    ∧ group_ids keyword = [] ∧ group_ids dquoted = []
    ∧ group_ids quoted = [] ∧ group_ids plain = [])
    as (keyword & dquoted & quoted & plain & -> & Hk & Hd & Hq & Hp)
    by (by eexists _, _, _, _).
  unfold match_at. cbn [rmatch]. intros H.
  destruct (at_boundary _ _); [|done].
  (* the keyword *)
  apply rmatch_groups in H as (s1 & (Hl1 & _ & Hf1) & H). rewrite Hk in Hf1.
  assert (Hg1 : m_groups s1 = [None; None; None; None]).
  { apply list_eq. intros j. rewrite Hf1; [done|]. by intros i ?%elem_of_nil. }
  unfold set_group in H. simpl in H. rewrite Hg1 in H. simpl in H.
  set (kw := consumed _ s1) in H.
  (* the colon and the optional space *)
  apply eat_Some in H as (c1 & t1 & _ & _ & H). simpl in H.
  apply orelse_Some in H as [H|H];
    [apply eat_Some in H as (c2 & t2 & _ & _ & H); simpl in H|];
    (apply orelse_Some in H as [H|H]; [|apply orelse_Some in H as [H|H]]).
  all: exists kw.
  all: repeat (apply eat_Some in H as (? & ? & _ & _ & H); simpl in H).
  all: apply rmatch_groups in H as (s2 & (Hl2 & _ & Hf2) & H).
  all: unfold set_group in H; simpl in Hl2, Hf2, H.
  all: rewrite ?Hd, ?Hq, ?Hp in Hf2.
  all: assert (Hg2 : m_groups s2 = [Some kw; None; None; None])
         by (apply list_eq; intros j; rewrite Hf2; [done|];
             by intros i ?%elem_of_nil).
  all: rewrite ?Hg2 in H; simpl in H.
  all: repeat (apply eat_Some in H as (? & ? & _ & _ & H); simpl in H).
  all: injection H as <-; simpl; eauto.
Qed.

(** The split is the query alone, or six items: the text before the match,
    the keyword, the three value groups, exactly one of which is set, and
    the text after the match. *)
Lemma LANGUAGE_MATCHER_split_shape query :
  LANGUAGE_MATCHER_split U query = [Some query]
  ∨ ∃ split0 split1 v split5,
      LANGUAGE_MATCHER_split U query
      = [Some split0; Some split1; Some v; None; None; Some split5]
      ∨ LANGUAGE_MATCHER_split U query
        = [Some split0; Some split1; None; Some v; None; Some split5]
      ∨ LANGUAGE_MATCHER_split U query
        = [Some split0; Some split1; None; None; Some v; Some split5].
Proof.
  unfold LANGUAGE_MATCHER_split, re_split1.
  destruct (search_from _ _ _ _ _ _) as [[b m]|] eqn:Hs; [|by left].
  right. apply search_from_Some in Hs as (sk & rest' & _ & _ & Hat & _).
  apply LANGUAGE_MATCHER_groups in Hat as (kw & v & [-> | [-> | ->]]);
    exists b, kw, v, (m_rest m); auto.
Qed.

(** The inconsistency fault is raised for a blank value only: the one value
    group that is set holds a text that is empty once stripped (and, for the
    groups of the contains values, rid of its backslashes). The contains value
    and the exact value are never both set. *)
Lemma parse_turn_inconsistency query result :
  parse_turn U query result = Raise (ValueError "Inconsistency") →
  ∃ split0 split1 v split5,
    (LANGUAGE_MATCHER_split U query
     = [Some split0; Some split1; Some v; None; None; Some split5]
     ∧ strip v = [])
    ∨ (LANGUAGE_MATCHER_split U query
       = [Some split0; Some split1; None; Some v; None; Some split5]
       ∧ strip (remove_char BACKSLASH v) = [])
    ∨ (LANGUAGE_MATCHER_split U query
       = [Some split0; Some split1; None; None; Some v; Some split5]
       ∧ strip (remove_char BACKSLASH v) = []).
Proof.
  assert (Hext : ∀ k i d, dict_extend k i d ≠ Raise (ValueError "Inconsistency"))
    by (intros k i d; unfold dict_extend; by case_match).
  assert (Happ : ∀ k i d,
            dict_get_append k i d ≠ Raise (ValueError "Inconsistency"))
    by (intros k i d; unfold dict_get_append; by case_match).
  unfold parse_turn.
  destruct (LANGUAGE_MATCHER_split_shape query)
    as [->|(s0 & s1 & v & s5 & [Hs|[Hs|Hs]])]; rewrite ?Hs.
  - destruct (truthy query); simpl; [|done].
    intros H. destruct (dict_extend _ _ _) eqn:He; simplify_eq/=.
    by apply Hext in He.
  - intros H. exists s0, s1, v, s5. left. split; [done|].
    simpl in H. replace (if truthy v then v else []) with v in H
      by (by destruct v).
    destruct (if truthy (strip s0) then _ else _) eqn:He; simplify_eq/=;
      [|destruct (truthy (strip s0)); simplify_eq/=; by apply Hext in He].
    destruct (strip v) eqn:Hv; [done|]. simpl in H.
    destruct (dict_get_append _ _ _) eqn:Ha; simplify_eq/=.
    by apply Happ in Ha.
  - intros H. exists s0, s1, v, s5. right. left. split; [done|].
    simpl in H. replace (if truthy v then v else []) with v in H
      by (by destruct v).
    destruct (if truthy (strip s0) then _ else _) eqn:He; simplify_eq/=;
      [|destruct (truthy (strip s0)); simplify_eq/=; by apply Hext in He].
    destruct (strip (remove_char BACKSLASH v)) eqn:Hv; [done|].
    simpl in H. destruct (dict_get_append _ _ _) eqn:Ha; simplify_eq/=.
    by apply Happ in Ha.
  - intros H. exists s0, s1, v, s5. right. right. split; [done|].
    simpl in H. replace (if truthy v then v else []) with v in H
      by (by destruct v).
    destruct (if truthy (strip s0) then _ else _) eqn:He; simplify_eq/=;
      [|destruct (truthy (strip s0)); simplify_eq/=; by apply Hext in He].
    destruct (strip (remove_char BACKSLASH v)) eqn:Hv; [done|].
    simpl in H. destruct (dict_get_append _ _ _) eqn:Ha; simplify_eq/=.
    by apply Happ in Ha.
Qed.

(** The quote style decides the list: a value of the doubled quote group,
    when not blank, is appended, stripped, to the exact list of the
    category. *)
Lemma parse_turn_exact_value query result split0 split1 v split5 result1 l :
  LANGUAGE_MATCHER_split U query
  = [Some split0; Some split1; Some v; None; None; Some split5] →
  strip v ≠ [] →
  (if truthy (strip split0)
   then dict_extend (py "remaining") (split_remaining (strip split0)) result
   else Return result) = Return result1 →
  result1 !! (lower U (strip split1 ++ py "s") ++ py "_exact") = Some l →
  parse_turn U query result
  = Return (<[lower U (strip split1 ++ py "s") ++ py "_exact"
              := l ++ [strip v]]> result1,
            Some (strip split5)).
Proof.
  intros Hs Hv Hrem Hl. unfold parse_turn. rewrite Hs. simpl.
  replace (if truthy v then v else []) with v by (by destruct v).
  rewrite Hrem. simpl. destruct (strip v) eqn:Hsv; [done|]. simpl.
  unfold dict_get_append. by rewrite Hl.
Qed.

(** A value of the quoted group or of the unquoted group, when not blank,
    is appended, rid of its backslashes and stripped, to the contains list
    of the category. *)
Lemma parse_turn_contains_value query result split0 split1 split3 split4 v
    split5 result1 l :
  LANGUAGE_MATCHER_split U query
  = [Some split0; Some split1; None; split3; split4; Some split5] →
  (split3 = Some v ∧ split4 = None) ∨ (split3 = None ∧ split4 = Some v) →
  strip (remove_char BACKSLASH v) ≠ [] →
  (if truthy (strip split0)
   then dict_extend (py "remaining") (split_remaining (strip split0)) result
   else Return result) = Return result1 →
  result1 !! lower U (strip split1 ++ py "s") = Some l →
  parse_turn U query result
  = Return (<[lower U (strip split1 ++ py "s")
              := l ++ [strip (remove_char BACKSLASH v)]]> result1,
            Some (strip split5)).
Proof.
  intros Hs Hg Hv Hrem Hl. unfold parse_turn. rewrite Hs.
  assert (or_str split3 (or_str split4 []) = v) as ->
    by (destruct Hg as [[-> ->]|[-> ->]]; by destruct v).
  simpl. rewrite Hrem. simpl.
  destruct (strip (remove_char BACKSLASH v)) eqn:Hsv; [done|]. simpl.
  unfold dict_get_append. by rewrite Hl.
Qed.

(** A turn goes on only after a match, with the text after it. *)
Lemma parse_turn_goes_on query result result' query' :
  parse_turn U query result = Return (result', Some query') →
  ∃ split0 split1 split2 split3 split4 split5,
    LANGUAGE_MATCHER_split U query
    = [Some split0; Some split1; split2; split3; split4; Some split5]
    ∧ query' = strip split5.
Proof.
  unfold parse_turn. intros H.
  repeat case_match; simplify_eq/=;
    repeat match goal with
    | H : bind ?x _ = Return _ |- _ => destruct x eqn:?; simplify_eq/=
    end; eauto 10.
Qed.

(** A turn that goes on goes on with a strictly shorter query. *)
Lemma parse_turn_shrinks query result result' query' :
  parse_turn U query result = Return (result', Some query') →
  length query' < length query.
Proof.
  intros H. apply parse_turn_goes_on in H as (s0 & s1 & s2 & s3 & s4 & s5 & H & ->).
  apply LANGUAGE_MATCHER_split_match in H as (matched & m & -> & Hlen & _).
  rewrite !length_app. pose proof (strip_length s5). lia.
Qed.
Lemma keyword_occurs_search query :
  keyword_occurs U query
  ↔ is_Some (search_from U true 4 LANGUAGE_MATCHER [] query).
Proof.
  split.
  - intros (before & rest & -> & Hm).
    destruct (search_from _ _ _ _ _ _) as [?|] eqn:Hs; [done|].
    eapply search_from_None in Hs; [|done]. simpl in Hs.
    rewrite Hs in Hm. by destruct Hm.
  - intros [[b m] Hs].
    apply search_from_Some in Hs as (sk & rest' & -> & -> & Hat & _).
    exists sk, rest'. simpl in Hat. by rewrite Hat.
Qed.

Lemma dict_extend_fuel key items d : dict_extend key items d ≠ OutOfFuel.
Proof. unfold dict_extend. by case_match. Qed.

Lemma dict_get_append_fuel key item d :
  dict_get_append key item d ≠ OutOfFuel.
Proof. unfold dict_get_append. by case_match. Qed.

Lemma bind_fuel {A B} (x : outcome A) (f : A → outcome B) :
  x ≠ OutOfFuel → (∀ a, f a ≠ OutOfFuel) → bind x f ≠ OutOfFuel.
Proof. destruct x; simpl; auto. Qed.

Lemma parse_turn_fuel query result : parse_turn U query result ≠ OutOfFuel.
Proof.
  unfold parse_turn.
  repeat case_match; try done;
    repeat (apply bind_fuel; [|intros ?]);
    auto using dict_extend_fuel, dict_get_append_fuel.
Qed.

(** A turn that goes on took the first match out of the query. *)
Lemma parse_turn_continue query result result' query' :
  parse_turn U query result = Return (result', Some query') →
  ∃ before matched after,
    query = before ++ matched ++ after
    ∧ matched ≠ []
    ∧ is_Some (match_at U true 4 LANGUAGE_MATCHER before (matched ++ after))
    ∧ (∀ s1 s2, before = s1 ++ s2 → s2 ≠ [] →
         match_at U true 4 LANGUAGE_MATCHER s1 (s2 ++ matched ++ after)
         = None)
    ∧ query' = strip after.
Proof.
  intros H. apply parse_turn_goes_on in H as (s0 & s1 & s2 & s3 & s4 & s5 & H & ->).
  apply LANGUAGE_MATCHER_split_match in H
    as (matched & m & -> & Hlen & Hat & _ & _ & Hfirst).
  exists s0, matched, s5. split_and!; [done| |by rewrite Hat|done..].
  intros ->. simpl in Hlen. lia.
Qed.

(** With more fuel than the query has characters the loop does not run out
    of fuel, and its outcome does not depend on the fuel. *)
Lemma parse_loop_enough fuel : ∀ query result,
  length query < fuel →
  parse_loop U fuel query result ≠ OutOfFuel
  ∧ ∀ fuel', length query < fuel' →
      parse_loop U fuel' query result = parse_loop U fuel query result.
Proof.
  induction fuel as [|fuel IH]; intros query result Hlen; [lia|].
  simpl. pose proof (parse_turn_fuel query result) as Hfuel.
  destruct (parse_turn U query result) as [[result' [query'|]]|e|] eqn:Hturn;
    simpl; [| |split; [done|]..|done].
  - pose proof (parse_turn_shrinks _ _ _ _ Hturn) as Hshrink.
    destruct (IH query' result') as [Hne Heq]; [lia|]. split; [done|].
    intros [|fuel'] Hlen'; [lia|]. simpl. rewrite Hturn. simpl.
    apply Heq. lia.
  - split; [done|]. intros [|fuel'] Hlen'; [lia|]. simpl. by rewrite Hturn.
  - intros [|fuel'] Hlen'; [lia|]. simpl. by rewrite Hturn.
Qed.
End ParserFacts.

(** C9. [parse] terminates: the loop never runs out of the turns that the
    model grants it, one more than the query has characters, and granting
    more does not change the outcome; a turn that goes on has taken out of
    its query the first match of the keyword pattern and nothing after it,
    and goes on with the text after the match, stripped, which is strictly
    shorter than the query of that turn. *)
Theorem parse_terminates (U : unicode_db) (query : pystr) :
  parse U query ≠ OutOfFuel
  ∧ (∀ fuel, length query < fuel →
       parse_loop U fuel query parse_init = parse U query)
  ∧ ∀ q result result' q',
      parse_turn U q result = Return (result', Some q') →
      (∃ before matched after,
         q = before ++ matched ++ after
         ∧ matched ≠ []
         ∧ is_Some (match_at U true 4 LANGUAGE_MATCHER before
                      (matched ++ after))
         ∧ (∀ s1 s2, before = s1 ++ s2 → s2 ≠ [] →
              match_at U true 4 LANGUAGE_MATCHER s1 (s2 ++ matched ++ after)
              = None)
         ∧ q' = strip after)
      ∧ length q' < length q.
Proof.
  unfold parse.
  destruct (parse_loop_enough U (S (length query)) query parse_init)
    as [Hne Heq]; [lia|].
  split_and!; [done|by intros; apply Heq|].
  intros q result result' q' Hturn.
  eauto using parse_turn_continue, parse_turn_shrinks.
Qed.

(** C7. When no keyword pattern occurs in the query, [parse] returns the
    dictionary it started from, every list of every category empty, with
    remaining bound to the tokens of the whole query. *)
Theorem parse_no_keyword (U : unicode_db) (query : pystr) :
  ¬ keyword_occurs U query →
  parse U query
  = Return (<[py "remaining" := split_remaining query]> parse_init).
Proof.
  intros Hno. unfold parse. simpl. unfold parse_turn.
  rewrite (LANGUAGE_MATCHER_split_no_keyword U query Hno).
  destruct query as [|c query]; simpl.
  - apply (bool_decide_unpack _). by vm_compute.
  - unfold dict_extend.
    replace (parse_init !! py "remaining") with (Some (@nil pystr))
      by (apply (bool_decide_unpack _); by vm_compute).
    done.
Qed.

Lemma parse_no_keyword_witness :
  ¬ keyword_occurs ucd (py "hello world")
  ∧ parse ucd (py "hello world")
    = Return (<[py "remaining" := [py "hello"; py "world"]]> parse_init).
Proof.
  assert (Hno : ¬ keyword_occurs ucd (py "hello world")).
  { rewrite keyword_occurs_search. intros [x Hx]. by vm_compute in Hx. }
  split; [exact Hno|].
  exact (parse_no_keyword ucd (py "hello world") Hno).
Defined.

(** ** The tokenizer *)

Lemma lstrip_elem (c : N) (s : pystr) : c ∈ lstrip s → c ∈ s.
Proof.
  intros H. destruct (lstrip_suffix s) as [k Hk]. rewrite Hk.
  apply elem_of_app. by right.
Qed.

Lemma strip_elem (c : N) (s : pystr) : c ∈ strip s → c ∈ s.
Proof.
  unfold strip, rstrip. rewrite elem_of_reverse. intros H.
  apply lstrip_elem in H. rewrite elem_of_reverse in H.
  by apply lstrip_elem in H.
Qed.

Lemma flush_Forall (P : pystr → Prop) (e : pystr) (result : list pystr) :
  Forall P result → (e ≠ [] → P e) → Forall P (flush e result).
Proof.
  intros Hres He. unfold flush. destruct e as [|c e]; simpl; [done|].
  apply Forall_app. split; [done|]. by apply Forall_singleton, He.
Qed.

(** Every token that the tokenizer has put aside is non-empty and holds no
    backslash, and no backslash enters the current expression. *)
Lemma tokenizer_step_invariant (t : tokenizer) (char : N) :
  Forall (λ tok, tok ≠ [] ∧ BACKSLASH ∉ tok) (tk_result t)
  ∧ BACKSLASH ∉ current_expression t →
  Forall (λ tok, tok ≠ [] ∧ BACKSLASH ∉ tok) (tk_result (tokenizer_step t char))
  ∧ BACKSLASH ∉ current_expression (tokenizer_step t char).
Proof.
  intros [Hres Hcur]. unfold tokenizer_step.
  repeat case_match; simpl; (split; [|try apply not_elem_of_nil]); try done.
  - apply flush_Forall; [done|]. by intros.
  - apply flush_Forall; [done|]. intros ?. split; [done|].
    intros ?%strip_elem. done.
  - apply flush_Forall; [done|]. intros ?. split; [done|].
    intros ?%strip_elem. done.
  - rewrite elem_of_app, list_elem_of_singleton. intros [?|Heq]; [done|].
    subst char. match goal with H : negb (_ =? _)%N = true |- _ => by vm_compute in H end.
Qed.

Lemma split_remaining_tokens (string token : pystr) :
  token ∈ split_remaining string → token ≠ [] ∧ BACKSLASH ∉ token.
Proof.
  unfold split_remaining.
  assert (Hinv : ∀ t,
    Forall (λ tok, tok ≠ [] ∧ BACKSLASH ∉ tok) (tk_result t)
    ∧ BACKSLASH ∉ current_expression t →
    Forall (λ tok, tok ≠ [] ∧ BACKSLASH ∉ tok)
      (tk_result (foldl tokenizer_step t string))
    ∧ BACKSLASH ∉ current_expression (foldl tokenizer_step t string)).
  { induction string as [|c s IH]; intros t Ht; simpl; [done|].
    by apply IH, tokenizer_step_invariant. }
  destruct (Hinv tokenizer_init) as [Hres Hcur];
    [split; [constructor | apply not_elem_of_nil]|].
  intros Hin. revert token Hin. apply Forall_forall.
  apply flush_Forall; [done|]. intros ?. split; [done|].
  by intros ?%strip_elem.
Qed.

(** Characters other than the double quote, the space and the backslash
    are added to the current expression. *)
Lemma tokenizer_plain (string : pystr) : ∀ t : tokenizer,
  Forall (λ c, c ≠ QUOTE ∧ c ≠ SPACE ∧ c ≠ BACKSLASH) string →
  tk_result (foldl tokenizer_step t string) = tk_result t
  ∧ current_expression (foldl tokenizer_step t string)
    = current_expression t ++ string.
Proof.
  induction string as [|c s IH]; intros t Hs; simpl.
  - by rewrite app_nil_r.
  - apply Forall_cons in Hs as [(Hq & Hsp & Hb) Hs].
    destruct (IH (tokenizer_step t c) Hs) as [-> ->].
    unfold tokenizer_step.
    apply N.eqb_neq in Hq, Hsp, Hb. rewrite Hq, Hsp, Hb. simpl.
    by rewrite <-(assoc_L (++)).
Qed.

(** C8, amended. Tokenizing again a token that the tokenizer produced, and
    that holds no white-space character at all, inside or at its ends, and no
    double quote, gives back that one token. *)
Theorem split_remaining_idempotent (string token : pystr) :
  token ∈ split_remaining string →
  Forall (λ c, isspace c = false) token →
  QUOTE ∉ token →
  split_remaining token = [token].
Proof.
  intros [Hne Hbs]%split_remaining_tokens Hspace Hquote.
  unfold split_remaining.
  destruct (tokenizer_plain token tokenizer_init) as [-> ->].
  - apply Forall_forall. intros c Hc. split_and!.
    + by intros ->.
    + intros ->. rewrite Forall_forall in Hspace. by apply Hspace in Hc.
    + by intros ->.
  - simpl. rewrite (strip_no_space token Hspace).
    unfold flush. by destruct token.
Qed.

(** C8, as stated, fails: a token taken from a quoted region keeps the
    spaces next to the quotes. The token made of a space and the letter a is
    produced by the tokenizer, is not empty, holds no double quote and no
    white space between two of its characters; tokenized again it loses its
    space, so the result is not the token itself. *)
Lemma split_remaining_not_idempotent :
  py " a" ∈ split_remaining (dq ++ py " a" ++ dq)
  ∧ py " a" ≠ []
  ∧ (QUOTE ∉ py " a")
  ∧ (∀ a c b, py " a" = a ++ c :: b → isspace c = true → a = [] ∨ b = [])
  ∧ split_remaining (py " a") = [py "a"]
  ∧ split_remaining (py " a") ≠ [py " a"].
Proof.
  split_and!.
  - vm_compute. apply list_elem_of_here.
  - done.
  - apply (bool_decide_unpack _). vm_compute. exact I.
  - intros a c b Heq Hc. destruct a as [|x [|y a]]; [by left|right|].
    + by destruct b; simplify_eq.
    + destruct a; simplify_eq.
  - run.
  - by vm_compute.
Qed.

Lemma split_remaining_idempotent_witness :
  py "hello" ∈ split_remaining (py "hello world")
  ∧ Forall (λ c, isspace c = false) (py "hello")
  ∧ (QUOTE ∉ py "hello")
  ∧ split_remaining (py "hello") = [py "hello"].
Proof.
  assert (H1 : py "hello" ∈ split_remaining (py "hello world"))
    by (vm_compute; apply list_elem_of_here).
  assert (H2 : Forall (λ c, isspace c = false) (py "hello"))
    by (vm_compute; repeat constructor).
  assert (H3 : QUOTE ∉ py "hello")
    by (apply (bool_decide_unpack _); vm_compute; exact I).
  split_and!; [done..|].
  exact (split_remaining_idempotent (py "hello world") (py "hello") H1 H2 H3).
Defined.

(** ** The song list view *)

Lemma Q_holds_and (row : string → pystr → bool) (a b : Q) :
  Q_holds row (a &&& b) = Q_holds row a && Q_holds row b.
Proof.
  unfold Q_combine. destruct b, a; simpl; try done;
    by rewrite ?andb_true_r.
Qed.

Lemma multi_valued_groups_and (a b : Q) :
  multi_valued_groups (a &&& b)
  = multi_valued_groups a + multi_valued_groups b.
Proof. unfold Q_combine. destruct b, a; simpl; lia. Qed.

Lemma foldl_and_holds (row : string → pystr → bool) (l : list Q) : ∀ acc,
  Q_holds row (foldl (λ filter_query item, filter_query &&& item) acc l)
  = Q_holds row acc && forallb (Q_holds row) l.
Proof.
  induction l as [|q l IH]; intros acc; simpl.
  - by rewrite andb_true_r.
  - by rewrite IH, Q_holds_and, andb_assoc.
Qed.

(** The one condition [filter_query] holds on a row exactly when every group
    of [query_list] does. *)
Lemma filter_query_holds (row : string → pystr → bool) (res : parsed_query) :
  Q_holds row (filter_query res) = forallb (Q_holds row) (query_list res).
Proof. unfold filter_query. by rewrite foldl_and_holds. Qed.

(** The merged condition holds the groups that read an artist or tag name
    of the condition it starts from and of every item. *)
Lemma foldl_and_groups (l : list Q) (n : nat) : ∀ acc,
  Forall (λ q, multi_valued_groups q = n) l →
  multi_valued_groups
    (foldl (λ filter_query item, filter_query &&& item) acc l)
  = multi_valued_groups acc + n * length l.
Proof.
  induction l as [|q l IH]; intros acc Hl; simpl; [lia|].
  apply Forall_cons in Hl as [Hq Hl].
  rewrite IH, multi_valued_groups_and by done. lia.
Qed.

(** The groups of [query_list] that read an artist or tag name are those of
    the free-text terms, one each. *)
Lemma filter_query_groups (res : parsed_query) :
  multi_valued_groups (filter_query res) = length (res_remaining res).
Proof.
  unfold filter_query, query_list. rewrite !(assoc_L (++)), foldl_app.
  rewrite (foldl_and_groups _ 1), length_fmap;
    [|rewrite Forall_fmap; apply Forall_true; intros ?; reflexivity].
  rewrite (foldl_and_groups _ 0); [simpl; lia|].
  rewrite !Forall_app, !Forall_fmap.
  split_and!; try (apply Forall_true; intros ?; reflexivity).
  apply Forall_bind, Forall_true. intros [query_name search_keywords].
  unfold compose, work_type_groups. rewrite Forall_app, !Forall_fmap.
  split; apply Forall_true; intros ?; reflexivity.
Qed.

Lemma search_calls (res : parsed_query) (query_set : list qs_call) :
  search res query_set
  = query_set ++ Filter (filter_query res) :: (Filter <$> query_list_many res).
Proof.
  unfold search. generalize (Filter (filter_query res)). intros c.
  assert (H : ∀ l acc, foldl (λ qs item, qs ++ [Filter item]) acc l
                       = acc ++ (Filter <$> l)).
  { induction l as [|q l IH]; intros acc; simpl.
    - by rewrite app_nil_r.
    - by rewrite IH, <-(assoc_L (++)). }
  by rewrite H, <-(assoc_L (++)).
Qed.

Lemma query_list_many_elem (res : parsed_query) (pass : Q) :
  pass ∈ query_list_many res ↔
    (∃ artist, artist ∈ contains (res_artist res)
       ∧ pass = Q_kw "artists__name__icontains" artist)
    ∨ (∃ artist, artist ∈ exact (res_artist res)
       ∧ pass = Q_kw "artists__name__iexact" artist)
    ∨ (∃ tag, tag ∈ res_tag res ∧ pass = Q_kw "tags__name" tag).
Proof.
  unfold query_list_many. rewrite !elem_of_app, !list_elem_of_fmap.
  split; intros [(x & ? & ?)|[(x & ? & ?)|(x & ? & ?)]]; eauto 6.
Qed.

(** C1, amended. For a parsed query with two artist or tag terms or more, the
    view calls [filter] once with the conjunction of all the groups of
    [query_list] and then once for each artist and tag term, with the
    condition of that term alone: there are as many such calls as terms, two
    at least, and each holds one predicate on these relations. The merged
    call is not free of them: it holds the group of every free-text term,
    which reads the artist name in a disjunction, so it applies together as
    many predicates on the artist relation as there are free-text terms. *)
Theorem multi_valued_isolation (res : parsed_query)
    (query_set : list qs_call) :
  2 ≤ multi_valued_terms res →
  search res query_set
  = query_set ++ Filter (filter_query res) :: (Filter <$> query_list_many res)
  ∧ (∀ pass, pass ∈ query_list_many res ↔
       (∃ artist, artist ∈ contains (res_artist res)
          ∧ pass = Q_kw "artists__name__icontains" artist)
       ∨ (∃ artist, artist ∈ exact (res_artist res)
          ∧ pass = Q_kw "artists__name__iexact" artist)
       ∨ (∃ tag, tag ∈ res_tag res ∧ pass = Q_kw "tags__name" tag))
  ∧ length (query_list_many res) = multi_valued_terms res
  ∧ 2 ≤ length (query_list_many res)
  ∧ Forall (λ pass, multi_valued_groups pass = 1) (query_list_many res)
  ∧ multi_valued_groups (filter_query res) = length (res_remaining res)
  ∧ (∀ remain, remain ∈ res_remaining res →
       remaining_group remain ∈ query_list res
       ∧ touches_multi_valued (remaining_group remain) = true)
  ∧ ∀ row, Q_holds row (filter_query res)
           = forallb (Q_holds row) (query_list res).
Proof.
  intros Hterms.
  assert (Hlen : length (query_list_many res) = multi_valued_terms res).
  { unfold query_list_many, multi_valued_terms.
    rewrite !length_app, !length_fmap. lia. }
  split_and!.
  - apply search_calls.
  - apply query_list_many_elem.
  - done.
  - lia.
  - unfold query_list_many. rewrite !Forall_app, !Forall_fmap.
    split_and!; apply Forall_true; intros ?; reflexivity.
  - apply filter_query_groups.
  - intros remain Hin. split; [|reflexivity].
    unfold query_list. rewrite !elem_of_app. do 5 right.
    by apply list_elem_of_fmap_2.
  - intros row. apply filter_query_holds.
Qed.

Lemma multi_valued_isolation_witness :
  2 ≤ multi_valued_terms ex_two_artists
  ∧ filters (search ex_two_artists [])
    = [ remaining_group (py "c");
        Q_kw "artists__name__icontains" (py "a");
        Q_kw "artists__name__iexact" (py "b");
        Q_kw "tags__name" (py "T") ].
Proof.
  assert (H : 2 ≤ multi_valued_terms ex_two_artists) by (vm_compute; lia).
  split; [exact H|].
  destruct (multi_valued_isolation ex_two_artists [] H) as [-> _].
  reflexivity.
Defined.

(** C1, as stated, fails: with two artist terms and two free-text terms the
    first call of [filter] is the conjunction of the groups of the two
    free-text terms, each of which reads the artist name: two predicates on
    the artist relation are merged in one conjunctive pass. *)
Lemma multi_valued_predicates_merged :
  2 ≤ multi_valued_terms ex_two_artists_two_free_texts
  ∧ filters (search ex_two_artists_two_free_texts [])
    = [ Q_and (remaining_group (py "a")) (remaining_group (py "b"));
        Q_kw "artists__name__icontains" (py "x");
        Q_kw "artists__name__icontains" (py "y") ]
  ∧ touches_multi_valued (remaining_group (py "a")) = true
  ∧ touches_multi_valued (remaining_group (py "b")) = true
  ∧ multi_valued_groups
      (Q_and (remaining_group (py "a")) (remaining_group (py "b"))) = 2.
Proof.
  split; [vm_compute; lia|]. split; [run|]. by split_and!.
Qed.

Lemma filters_app (l1 l2 : list qs_call) :
  filters (l1 ++ l2) = filters l1 ++ filters l2.
Proof. apply bind_app. Qed.

Lemma filters_Filter (l : list Q) : filters (Filter <$> l) = l.
Proof. induction l as [|q l IH]; simpl; [done|]. by f_equal. Qed.

Lemma filters_search (res : parsed_query) (query_set : list qs_call) :
  filters (search res query_set)
  = filters query_set ++ filter_query res :: query_list_many res.
Proof.
  rewrite search_calls, filters_app. f_equal.
  change (filter_query res :: filters (Filter <$> query_list_many res)
          = filter_query res :: query_list_many res).
  by rewrite filters_Filter.
Qed.

(** C2, as stated, fails: with one title term and one free-text term the
    view makes a single call of [filter], whose condition is the conjunction
    of the title condition and the group of the free-text term; the group is
    not the condition of a call of its own. *)
Lemma remaining_group_not_isolated :
  filters (search ex_title_and_free_text [])
  = [Q_and (Q_kw "title__icontains" (py "t")) (remaining_group (py "a"))]
  ∧ (remaining_group (py "a") ∉ filters (search ex_title_and_free_text [])).
Proof.
  split; [run|]. apply (bool_decide_unpack _). vm_compute. exact I.
Qed.

(** C2, amended. The group of a free-text term is the disjunction of seven
    partial matches: title, artist name, work title, alternative work title,
    version, detail and video detail. It is one of the groups of
    [query_list], which the one conjunctive call of [filter] merges: that
    call lets a row through only if the group holds on it. It is not among
    the conditions of [query_list_many], which are applied one call each. *)
Theorem remaining_group_merged (res : parsed_query)
    (query_set : list qs_call) (remain : pystr) :
  remain ∈ res_remaining res →
  remaining_group remain
  = Q_or (Q_or (Q_or (Q_or (Q_or (Q_or
      (Q_kw "title__icontains" remain)
      (Q_kw "artists__name__icontains" remain))
      (Q_kw "works__title__icontains" remain))
      (Q_kw "works__alternative_title__title__icontains" remain))
      (Q_kw "version__icontains" remain))
      (Q_kw "detail__icontains" remain))
      (Q_kw "detail_video__icontains" remain)
  ∧ remaining_group remain ∈ query_list res
  ∧ (remaining_group remain ∉ query_list_many res)
  ∧ filters (search res query_set)
    = filters query_set ++ filter_query res :: query_list_many res
  ∧ ∀ row, Q_holds row (filter_query res) = true →
           Q_holds row (remaining_group remain) = true.
Proof.
  intros Hin.
  assert (Hlist : remaining_group remain ∈ query_list res).
  { unfold query_list. rewrite !elem_of_app. do 5 right.
    by apply list_elem_of_fmap_2. }
  split_and!; [done|done| |apply filters_search|].
  - rewrite query_list_many_elem.
    by intros [(x & _ & ?)|[(x & _ & ?)|(x & _ & ?)]].
  - intros row. rewrite filter_query_holds.
    intros Hall. apply Is_true_true in Hall. rewrite forallb_True in Hall.
    rewrite Forall_forall in Hall. apply Is_true_true. by apply Hall.
Qed.

Lemma remaining_group_merged_witness :
  py "a" ∈ res_remaining ex_title_and_free_text
  ∧ remaining_group (py "a") ∈ query_list ex_title_and_free_text
  ∧ (remaining_group (py "a") ∉ query_list_many ex_title_and_free_text).
Proof.
  assert (H : py "a" ∈ res_remaining ex_title_and_free_text)
    by (simpl; apply list_elem_of_here).
  split; [exact H|].
  destruct (remaining_group_merged ex_title_and_free_text [] (py "a") H)
    as (_ & H1 & H2 & _).
  exact (conj H1 H2).
Defined.

(** C5, as stated, fails: on the query of the end-to-end scenario the view
    does not make the three expected calls of [filter]. The word tag is not
    a keyword of the language, so the parser leaves the last word as free
    text. *)
Lemma end_to_end_not_as_expected :
  parse ucd ex_end_to_end
  = Return (<[py "works_exact" := [py "Opening Theme"]]>
           (<[py "artists" := [py "foo"]]>
           (<[py "remaining" := [py "tag:favorite"]]> parse_init)))
  ∧ ∃ query_set,
      get_queryset (QueryLanguageParser_parse ucd) false false
        {[ "query" := ex_end_to_end ]} = Return query_set
      ∧ filters query_set ≠ expected_end_to_end_filters.
Proof.
  split; [run|]. eexists. split; [vm_compute; reflexivity|].
  apply (bool_decide_unpack _). vm_compute. exact I.
Qed.

(** C5, amended. On the query of the end-to-end scenario, parsing and then
    filtering makes two calls of [filter]: one with the conjunction of the
    group of the exact work term (work title or alternative title equal,
    ignoring case, to Opening Theme) and of the group of the free-text term
    tag:favorite; and one with the partial match of the artist name against
    foo. There is no call for a tag. *)
Theorem end_to_end_filters (U : unicode_db)
    (is_superuser is_library_manager : bool) :
  ∃ query_set,
    get_queryset (QueryLanguageParser_parse U) is_superuser
      is_library_manager {[ "query" := ex_end_to_end ]} = Return query_set
    ∧ filters query_set
      = [ Q_and
            (Q_or (Q_kw "works__title__iexact" (py "Opening Theme"))
                  (Q_kw "works__alternative_title__title__iexact"
                     (py "Opening Theme")))
            (remaining_group (py "tag:favorite"));
          Q_kw "artists__name__icontains" (py "foo") ].
Proof.
  destruct is_superuser, is_library_manager;
    (eexists; split; [vm_compute; reflexivity|];
     apply (bool_decide_unpack _); vm_compute; exact I).
Qed.

(** ** The shape of the parsed query *)

Lemma parse_init_dom : dom parse_init = list_to_set parse_keys.
Proof. unfold parse_init, parse_keys. rewrite !dom_insert_L. set_solver. Qed.

Lemma dict_extend_dom (key : pystr) (items : list pystr)
    (d d' : gmap pystr (list pystr)) :
  dict_extend key items d = Return d' → dom d' = dom d.
Proof.
  unfold dict_extend. destruct (d !! key) eqn:Hk; [|done].
  intros [= <-]. by apply dom_insert_lookup_L.
Qed.

Lemma dict_get_append_dom (key item : pystr)
    (d d' : gmap pystr (list pystr)) :
  dict_get_append key item d = Return d' → dom d' = dom d.
Proof.
  unfold dict_get_append. destruct (d !! key) eqn:Hk; [|done].
  intros [= <-]. by apply dom_insert_lookup_L.
Qed.

(** A turn of the loop adds no key to the dictionary and removes none. *)
Lemma parse_turn_dom (U : unicode_db) query result result' next :
  parse_turn U query result = Return (result', next) →
  dom result' = dom result.
Proof.
  unfold parse_turn. intros H.
  repeat case_match; simplify_eq/=;
    repeat match goal with
    | H : bind ?x _ = Return _ |- _ => destruct x eqn:?; simplify_eq/=
    end;
    repeat match goal with
    | H : dict_extend _ _ _ = Return _ |- _ => apply dict_extend_dom in H
    | H : dict_get_append _ _ _ = Return _ |- _ =>
        apply dict_get_append_dom in H
    end; congruence.
Qed.

Lemma parse_loop_dom (U : unicode_db) fuel : ∀ query result result',
  parse_loop U fuel query result = Return result' →
  dom result' = dom result.
Proof.
  induction fuel as [|fuel IH]; intros query result result'; simpl; [done|].
  destruct (parse_turn U query result) as [[r [q|]]| |] eqn:Hturn;
    simpl; try done.
  - intros ->%IH. by eapply parse_turn_dom.
  - intros [= <-]. by eapply parse_turn_dom.
Qed.

(** A dictionary of lists that binds a key other than remaining has the
    nested shape for no choice of category names. *)
Lemma dict_value_not_nested (d : gmap pystr (list pystr)) (k : pystr)
    (l : list pystr) (categories : list pystr) :
  d !! k = Some l → k ≠ py "remaining" →
  ¬ nested_shape categories (dict_value d).
Proof.
  intros Hk Hne (items & Heq & _ & _ & Hitems).
  unfold dict_value in Heq. injection Heq as <-.
  specialize (Hitems k (PyList (PyStr <$> l))).
  rewrite bool_decide_eq_false_2 in Hitems by exact Hne.
  destruct Hitems as (items' & Hdict & _); [|discriminate Hdict].
  apply list_elem_of_fmap. exists (k, l). split; [reflexivity|].
  by apply elem_of_map_to_list.
Qed.

(** C6, as stated, fails: the dictionary that [parse] returns for the query
    artist:foo binds the key artists to a list of strings, not to a record
    of two lists, and has no key artist; it has the nested shape for no
    choice of category names. *)
Lemma parse_result_not_nested :
  ∃ d, parse ucd (py "artist:foo") = Return d
    ∧ d !! py "artists" = Some [py "foo"]
    ∧ d !! py "artist" = None
    ∧ ∀ categories, ¬ nested_shape categories (dict_value d).
Proof.
  exists (<[py "artists" := [py "foo"]]> parse_init).
  split; [run|]. split; [run|]. split; [run|].
  intros categories.
  apply (dict_value_not_nested _ (py "artists") [py "foo"]); [run|].
  apply (bool_decide_unpack _). vm_compute. exact I.
Qed.

(** C6, amended. A dictionary that [parse] returns is flat: its keys are
    artists, artists_exact, works, works_exact, titles, titles_exact and
    remaining, each bound to a list of strings. *)
Theorem parse_result_flat (U : unicode_db) (query : pystr)
    (d : gmap pystr (list pystr)) :
  parse U query = Return d →
  dom d = list_to_set parse_keys ∧ flat_shape (dict_value d).
Proof.
  intros Hd. apply parse_loop_dom in Hd. rewrite parse_init_dom in Hd.
  split; [exact Hd|]. eexists. split; [reflexivity|].
  assert (Hfst : ((λ kv : pystr * list pystr,
                     (kv.1, PyList (PyStr <$> kv.2))) <$> map_to_list d).*1
                 = (map_to_list d).*1).
  { rewrite <-list_fmap_compose. by apply list_fmap_ext. }
  rewrite Hfst. split_and!.
  - apply NoDup_fst_map_to_list.
  - intros k. transitivity (k ∈ dom d).
    + rewrite elem_of_dom, list_elem_of_fmap. split.
      * intros ([k' v] & -> & Hkv%elem_of_map_to_list). by exists v.
      * intros [v Hv]. exists (k, v). by rewrite elem_of_map_to_list.
    + rewrite Hd. apply elem_of_list_to_set.
  - intros k x ([k' v] & [= -> ->] & _)%list_elem_of_fmap. by exists v.
Qed.

Lemma parse_result_flat_witness :
  parse ucd (py "artist:foo")
  = Return (<[py "artists" := [py "foo"]]> parse_init)
  ∧ flat_shape (dict_value (<[py "artists" := [py "foo"]]> parse_init)).
Proof.
  assert (H : parse ucd (py "artist:foo")
              = Return (<[py "artists" := [py "foo"]]> parse_init)) by run.
  split; [exact H|].
  exact (proj2 (parse_result_flat ucd _ _ H)).
Defined.

(** * Further properties *)

(** ** The tokenizer, case by case *)

Lemma lstrip_all_space (s : pystr) :
  Forall (λ c, isspace c = true) s → lstrip s = [].
Proof. induction 1 as [|c t Hc _ IH]; simpl; [done|]. by rewrite Hc. Qed.

Lemma strip_all_space (s : pystr) :
  Forall (λ c, isspace c = true) s → strip s = [].
Proof. intros H. unfold strip. by rewrite lstrip_all_space. Qed.

(** A string that begins and ends with characters that are not white space
    is left as it is by [strip]. *)
Lemma strip_edges (c d : N) (s : pystr) :
  isspace c = false → isspace d = false →
  strip (c :: s ++ [d]) = c :: s ++ [d].
Proof.
  intros Hc Hd. unfold strip, rstrip. simpl. rewrite Hc.
  rewrite reverse_cons, reverse_app. simpl. rewrite Hd.
  by rewrite reverse_cons, reverse_app, reverse_involutive.
Qed.

Lemma flush_nonempty (e : pystr) (result : list pystr) :
  e ≠ [] → flush e result = result ++ [e].
Proof. by destruct e. Qed.

Lemma tokenizer_step_previous_char (t : tokenizer) (c : N) :
  previous_char (tokenizer_step t c) = Some c.
Proof. unfold tokenizer_step. by repeat case_match. Qed.

Lemma tokenizer_previous_char (s : pystr) : ∀ t : tokenizer,
  previous_char (foldl tokenizer_step t s)
  = match last s with Some c => Some c | None => previous_char t end.
Proof.
  induction s as [|c s IH]; intros t; simpl; [done|].
  rewrite IH, tokenizer_step_previous_char, last_cons.
  by destruct (last s).
Qed.

(** Every double quote switches the quoting, nothing else does. *)
Lemma tokenizer_in_quotes (s : pystr) : ∀ t : tokenizer,
  in_quotes (foldl tokenizer_step t s)
  = xorb (in_quotes t) (Nat.odd (length (filter (λ c, c = QUOTE) s))).
Proof.
  induction s as [|c s IH]; intros t; simpl.
  - by destruct (in_quotes t).
  - rewrite IH. unfold tokenizer_step.
    destruct (decide (c = QUOTE)) as [->|Hc].
    + rewrite filter_cons_True by done. simpl length.
      rewrite Nat.odd_succ, <-Nat.negb_odd. simpl.
      by destruct (in_quotes t), (Nat.odd _).
    + rewrite filter_cons_False by done.
      apply N.eqb_neq in Hc. rewrite Hc. by repeat case_match.
Qed.

(** The tokens put aside before a run of the tokenizer stay in front of the
    tokens of that run. *)
Lemma tokenizer_result_prefix (r0 : list pystr) (s : pystr) :
  ∀ t1 t2 : tokenizer,
    tk_result t1 = r0 ++ tk_result t2 →
    current_expression t1 = current_expression t2 →
    in_quotes t1 = in_quotes t2 →
    (previous_char t1 = Some BACKSLASH ↔ previous_char t2 = Some BACKSLASH) →
    tk_result (foldl tokenizer_step t1 s)
    = r0 ++ tk_result (foldl tokenizer_step t2 s)
    ∧ current_expression (foldl tokenizer_step t1 s)
      = current_expression (foldl tokenizer_step t2 s).
Proof.
  induction s as [|c s IH]; intros t1 t2 Hr He Hq Hp; simpl; [done|].
  apply IH.
  - unfold tokenizer_step, flush. rewrite Hr, He, Hq.
    rewrite (bool_decide_ext _ _ Hp).
    repeat case_match; simpl; by rewrite <-?(assoc_L (++)).
  - unfold tokenizer_step. rewrite He, Hq, (bool_decide_ext _ _ Hp).
    by repeat case_match.
  - unfold tokenizer_step. rewrite Hq, (bool_decide_ext _ _ Hp).
    by repeat case_match.
  - by rewrite !tokenizer_step_previous_char.
Qed.

(** Inside quotes every character but the backslash joins the current
    expression, up to the next double quote. *)
Lemma tokenizer_quoted (s : pystr) : ∀ t : tokenizer,
  in_quotes t = true → QUOTE ∉ s →
  tk_result (foldl tokenizer_step t s) = tk_result t
  ∧ current_expression (foldl tokenizer_step t s)
    = current_expression t ++ remove_char BACKSLASH s
  ∧ in_quotes (foldl tokenizer_step t s) = true.
Proof.
  induction s as [|c s IH]; intros t Hq Hs; simpl.
  - by rewrite app_nil_r.
  - apply not_elem_of_cons in Hs as [Hc Hs].
    assert (Hc' : (c =? QUOTE)%N = false) by (apply N.eqb_neq; congruence).
    destruct (IH (tokenizer_step t c)) as (-> & -> & ->); [|done|].
    + unfold tokenizer_step. rewrite Hc', Hq, andb_false_r. simpl.
      by case_match.
    + unfold tokenizer_step, remove_char.
      rewrite Hc', Hq, andb_false_r. simpl.
      destruct (decide (c = BACKSLASH)) as [->|Hb].
      * by rewrite filter_cons_False by (by intros ?).
      * rewrite filter_cons_True by done.
        apply N.eqb_neq in Hb. rewrite Hb. simpl.
        by rewrite <-(assoc_L (++)).
Qed.

(** X1. The tokenizer never gives an empty token, nor a token that holds a
    backslash. *)
Theorem split_remaining_clean_tokens (string token : pystr) :
  token ∈ split_remaining string → token ≠ [] ∧ BACKSLASH ∉ token.
Proof. apply split_remaining_tokens. Qed.

Lemma split_remaining_clean_tokens_witness :
  py "ab" ∈ split_remaining (py "a\b c")
  ∧ py "ab" ≠ [] ∧ (BACKSLASH ∉ py "ab").
Proof.
  assert (H : py "ab" ∈ split_remaining (py "a\b c"))
    by (vm_compute; apply list_elem_of_here).
  split; [exact H|].
  exact (split_remaining_clean_tokens (py "a\b c") (py "ab") H).
Defined.

Lemma split_remaining_all_space (string : pystr) :
  Forall (λ c, isspace c = true) string → split_remaining string = [].
Proof.
  intros Hs. unfold split_remaining.
  assert (Hinv : ∀ t,
    tk_result t = [] → Forall (λ c, isspace c = true) (current_expression t) →
    tk_result (foldl tokenizer_step t string) = []
    ∧ Forall (λ c, isspace c = true)
        (current_expression (foldl tokenizer_step t string))).
  { induction Hs as [|c s Hc _ IH]; intros t Hr He; simpl; [done|].
    apply IH; unfold tokenizer_step;
      assert ((c =? QUOTE)%N = false) as ->
        by (apply N.eqb_neq; intros ->; by vm_compute in Hc);
      repeat case_match; simpl; rewrite ?Hr; try done;
      rewrite ?(strip_all_space _ He); try done.
    apply Forall_app. split; [done|]. by apply Forall_singleton. }
  destruct (Hinv tokenizer_init) as [-> He]; [done|constructor|].
  by rewrite (strip_all_space _ He).
Qed.

(** X2. A blank string, made of white space only, has no token. *)
Theorem split_remaining_blank (string : pystr) :
  Forall (λ c, isspace c = true) string → split_remaining string = [].
Proof. apply split_remaining_all_space. Qed.

Lemma split_remaining_blank_witness :
  Forall (λ c, isspace c = true) [32; 9; 160]%N
  ∧ split_remaining [32; 9; 160]%N = [].
Proof.
  assert (H : Forall (λ c, isspace c = true) [32; 9; 160]%N)
    by (repeat constructor).
  split; [exact H|]. exact (split_remaining_blank _ H).
Defined.

(** X3. A region between two double quotes is one token, white space
    included, rid of its backslashes; an empty region gives no token. *)
Theorem split_remaining_quoted (s : pystr) :
  QUOTE ∉ s →
  split_remaining (dq ++ s ++ dq) = flush (remove_char BACKSLASH s) [].
Proof.
  intros Hs. unfold split_remaining. rewrite !foldl_app.
  change (foldl tokenizer_step tokenizer_init dq)
    with (tokenizer_step tokenizer_init QUOTE).
  destruct (tokenizer_quoted s (tokenizer_step tokenizer_init QUOTE))
    as (Hr & He & Hq); [done..|].
  change (tk_result (tokenizer_step tokenizer_init QUOTE))
    with (@nil pystr) in Hr.
  change (current_expression (tokenizer_step tokenizer_init QUOTE))
    with (@nil N) in He.
  cbn [foldl dq].
  set (t := foldl tokenizer_step (tokenizer_step tokenizer_init QUOTE) s) in *.
  unfold tokenizer_step. rewrite N.eqb_refl, Hq. simpl. rewrite Hr, He.
  reflexivity.
Qed.

Lemma split_remaining_quoted_witness :
  (QUOTE ∉ py " a  b\ ")
  ∧ split_remaining (dq ++ py " a  b\ " ++ dq) = [py " a  b "].
Proof.
  assert (H : QUOTE ∉ py " a  b\ ")
    by (apply (bool_decide_unpack _); vm_compute; exact I).
  split; [exact H|]. exact (split_remaining_quoted _ H).
Defined.

(** X4. An opening double quote that is never closed takes the rest of the
    string as one token, rid of its backslashes and, unlike a closed region,
    stripped. *)
Theorem split_remaining_unterminated (s : pystr) :
  QUOTE ∉ s →
  split_remaining (dq ++ s) = flush (strip (remove_char BACKSLASH s)) [].
Proof.
  intros Hs. unfold split_remaining, dq. simpl.
  destruct (tokenizer_quoted s (tokenizer_step tokenizer_init QUOTE))
    as (-> & -> & _); done.
Qed.

Lemma split_remaining_unterminated_witness :
  (QUOTE ∉ py " a b ") ∧ split_remaining (dq ++ py " a b ") = [py "a b"].
Proof.
  assert (H : QUOTE ∉ py " a b ")
    by (apply (bool_decide_unpack _); vm_compute; exact I).
  split; [exact H|]. exact (split_remaining_unterminated _ H).
Defined.

Lemma filter_quotes_none (s : pystr) :
  Forall (λ c, c ≠ QUOTE) s → filter (λ c, c = QUOTE) s = [].
Proof.
  induction 1 as [|c t Hc _ IH]; [done|].
  by rewrite filter_cons_False.
Qed.

(** X5. A backslash before a space keeps two words in one token: the space
    stays and the backslash goes. *)
Theorem split_remaining_escaped_space (a b : pystr) :
  a ≠ [] → b ≠ [] →
  Forall (λ c, isspace c = false ∧ c ≠ QUOTE ∧ c ≠ BACKSLASH) (a ++ b) →
  split_remaining (a ++ [BACKSLASH; SPACE] ++ b) = [a ++ [SPACE] ++ b].
Proof.
  intros Ha Hb Hab. apply Forall_app in Hab as [Hpa Hpb].
  assert (Hplain : ∀ s,
    Forall (λ c, isspace c = false ∧ c ≠ QUOTE ∧ c ≠ BACKSLASH) s →
    Forall (λ c, c ≠ QUOTE ∧ c ≠ SPACE ∧ c ≠ BACKSLASH) s).
  { intros s Hs. eapply Forall_impl; [exact Hs|].
    intros c (Hc & ? & ?). split_and!; [done| |done].
    intros ->. by vm_compute in Hc. }
  unfold split_remaining. rewrite !foldl_app.
  destruct (tokenizer_plain a tokenizer_init (Hplain _ Hpa)) as [Hr He].
  set (ta := foldl tokenizer_step tokenizer_init a) in *.
  simpl in Hr, He. cbn [foldl].
  set (t1 := tokenizer_step ta BACKSLASH).
  assert (H1 : tk_result t1 = [] ∧ current_expression t1 = a
               ∧ in_quotes t1 = false
               ∧ previous_char t1 = Some BACKSLASH).
  { unfold t1, tokenizer_step. simpl. rewrite Hr, He.
    unfold ta. rewrite tokenizer_in_quotes.
    rewrite filter_quotes_none; [done|].
    eapply Forall_impl; [exact Hpa|]. by intros c (_ & ? & _). }
  destruct H1 as (Hr1 & He1 & Hq1 & Hp1).
  set (t2 := tokenizer_step t1 SPACE).
  assert (H2 : tk_result t2 = [] ∧ current_expression t2 = a ++ [SPACE]).
  { unfold t2, tokenizer_step. simpl. by rewrite andb_false_r, Hr, He. }
  destruct H2 as (Hr2 & He2).
  destruct (tokenizer_plain b t2 (Hplain _ Hpb)) as [-> ->].
  rewrite Hr2, He2, <-(assoc_L (++)).
  destruct a as [|c a]; [done|].
  destruct (exists_last Hb) as (b' & d & ->). simpl.
  apply Forall_cons in Hpa as [(Hc & _) _].
  apply Forall_app in Hpb as [_ (Hd & _)%Forall_singleton].
  change (c :: a ++ SPACE :: b' ++ [d])
    with (c :: a ++ [SPACE] ++ b' ++ [d]).
  rewrite !(assoc_L (++)). rewrite (strip_edges c d) by done. done.
Qed.

Lemma split_remaining_escaped_space_witness :
  py "hello" ≠ [] ∧ py "world" ≠ []
  ∧ Forall (λ c, isspace c = false ∧ c ≠ QUOTE ∧ c ≠ BACKSLASH)
      (py "hello" ++ py "world")
  ∧ split_remaining (py "hello\ world") = [py "hello world"].
Proof.
  assert (H1 : py "hello" ≠ []) by done.
  assert (H2 : py "world" ≠ []) by done.
  assert (H3 : Forall (λ c, isspace c = false ∧ c ≠ QUOTE ∧ c ≠ BACKSLASH)
                 (py "hello" ++ py "world"))
    by (vm_compute; repeat constructor; by intros [=]).
  split_and!; [done..|].
  exact (split_remaining_escaped_space (py "hello") (py "world") H1 H2 H3).
Defined.

(** X6. Tokenizing goes through a space that is neither quoted nor escaped:
    when the text before it has an even number of double quotes and does not
    end with a backslash, the tokens of the whole are the tokens of the text
    before followed by the tokens of the text after. *)
Theorem split_remaining_space (a b : pystr) :
  Nat.even (length (filter (λ c, c = QUOTE) a)) = true →
  last a ≠ Some BACKSLASH →
  split_remaining (a ++ [SPACE] ++ b) = split_remaining a ++ split_remaining b.
Proof.
  intros Heven Hlast. unfold split_remaining. rewrite !foldl_app.
  set (ta := foldl tokenizer_step tokenizer_init a).
  assert (Hq : in_quotes ta = false).
  { unfold ta. rewrite tokenizer_in_quotes, <-Nat.negb_even, Heven. done. }
  assert (Hp : previous_char ta ≠ Some BACKSLASH).
  { unfold ta. rewrite tokenizer_previous_char. by destruct (last a). }
  cbn [foldl].
  destruct (tokenizer_result_prefix
              (flush (strip (current_expression ta)) (tk_result ta)) b
              (tokenizer_step ta SPACE) tokenizer_init) as [-> ->].
  - unfold tokenizer_step. simpl. rewrite Hq. simpl.
    rewrite bool_decide_eq_false_2 by done. simpl. by rewrite app_nil_r.
  - unfold tokenizer_step. simpl. rewrite Hq. simpl.
    by rewrite bool_decide_eq_false_2 by done.
  - unfold tokenizer_step. simpl. rewrite Hq. simpl.
    by rewrite bool_decide_eq_false_2 by done.
  - rewrite tokenizer_step_previous_char. simpl. split; intros [=].
  - unfold flush. repeat case_match; by rewrite <-?(assoc_L (++)).
Qed.

Lemma split_remaining_space_witness :
  Nat.even (length (filter (λ c, c = QUOTE) (dq ++ py "a b" ++ dq))) = true
  ∧ last (dq ++ py "a b" ++ dq) ≠ Some BACKSLASH
  ∧ split_remaining ((dq ++ py "a b" ++ dq) ++ [SPACE] ++ py "c d")
    = [py "a b"; py "c"; py "d"].
Proof.
  assert (H1 : Nat.even (length (filter (λ c, c = QUOTE)
                                   (dq ++ py "a b" ++ dq))) = true)
    by (vm_compute; reflexivity).
  assert (H2 : last (dq ++ py "a b" ++ dq) ≠ Some BACKSLASH)
    by (vm_compute; by intros [=]).
  split_and!; [done..|].
  exact (split_remaining_space _ (py "c d") H1 H2).
Defined.

(** ** The keyword pattern, once more *)

Section MatcherPositions.
Context (U : unicode_db) (ic : bool).

Lemma repeat_greedy_position body k :
  (∀ k1 s1 m1, body k1 s1 = Some m1 →
     ∃ s', m_rest s' `suffix_of` m_rest s1 ∧ k1 s' = Some m1) →
  ∀ n s m, repeat_greedy body k n s = Some m →
    ∃ s', m_rest s' `suffix_of` m_rest s ∧ k s' = Some m.
Proof.
  intros Hbody. induction n as [|n IH]; intros s m H; simpl in H; [done|].
  apply Hbody in H as (s1 & Hs1 & H). destruct (progressed s s1); [|by eauto].
  apply orelse_Some in H as [H|H]; [|by eauto].
  apply IH in H as (s2 & Hs2 & H). exists s2. split; [by etrans|done].
Qed.

Lemma repeat_lazy_position body k :
  (∀ k1 s1 m1, body k1 s1 = Some m1 →
     ∃ s', m_rest s' `suffix_of` m_rest s1 ∧ k1 s' = Some m1) →
  ∀ n s m, repeat_lazy body k n s = Some m →
    ∃ s', m_rest s' `suffix_of` m_rest s ∧ k s' = Some m.
Proof.
  intros Hbody. induction n as [|n IH]; intros s m H; simpl in H; [done|].
  apply Hbody in H as (s1 & Hs1 & H). destruct (progressed s s1); [|by eauto].
  apply orelse_Some in H as [H|H]; [by eauto|].
  apply IH in H as (s2 & Hs2 & H). exists s2. split; [by etrans|done].
Qed.

(** A match of [r] hands over to the continuation at a later position of
    the same subject. *)
Lemma rmatch_position r : ∀ k s m,
  rmatch U ic r k s = Some m →
  ∃ s', m_rest s' `suffix_of` m_rest s ∧ k s' = Some m.
Proof.
  assert (Heat : ∀ p k s m,
    eat p k s = Some m →
    ∃ s', m_rest s' `suffix_of` m_rest s ∧ k s' = Some m).
  { intros p k s m (c & t & Hs & _ & H)%eat_Some. eexists. split; [|done].
    simpl. rewrite Hs. by apply suffix_cons_r. }
  induction r as [|p| | | | |r1 IH1 r2 IH2|r1 IH1 r2 IH2|r1 IH1|r1 IH1|r1 IH1
                  |i r1 IH1]; intros k s m H; cbn [rmatch] in H.
  - by eauto.
  - by apply Heat in H.
  - by apply Heat in H.
  - by apply Heat in H.
  - by apply Heat in H.
  - destruct (at_boundary U s); [by eauto | done].
  - apply IH1 in H as (s1 & ? & H). apply IH2 in H as (s2 & ? & H).
    exists s2. split; [by etrans|done].
  - apply orelse_Some in H as [H|H]; eauto.
  - apply orelse_Some in H as [H|H]; eauto.
  - by apply repeat_greedy_position in H.
  - by apply repeat_lazy_position in H.
  - apply IH1 in H as (s1 & ? & H). by exists (set_group i (consumed s s1) s1).
Qed.

(** A literal string matches as many characters, one for one, and touches
    no group. *)
Lemma rmatch_lits (w : pystr) : ∀ k s m,
  rmatch U ic (lits w) k s = Some m →
  ∃ x s', m_rest s = x ++ m_rest s'
    ∧ Forall2 (λ p c, lit_matches ic p c = true) w x
    ∧ m_groups s' = m_groups s
    ∧ k s' = Some m.
Proof.
  induction w as [|p w IH]; intros k s m H.
  - exists [], s. by split_and!.
  - assert (Hcons : rmatch U ic (lits (p :: w)) k s
                    = eat (lit_matches ic p) (rmatch U ic (lits w) k) s)
      by (by destruct w).
    rewrite Hcons in H. apply eat_Some in H as (c & t & Hs & Hc & H).
    apply IH in H as (x & s' & Hx & Hall & Hg & H). simpl in Hx, Hg.
    exists (c :: x), s'. split_and!; [|by constructor|done..].
    by rewrite Hs, Hx.
Qed.
End MatcherPositions.

Section KeywordFacts.
Context (U : unicode_db).

(** A match of the keyword pattern goes through a colon. *)
Lemma LANGUAGE_MATCHER_colon before rest m :
  match_at U true 4 LANGUAGE_MATCHER before rest = Some m → COLON ∈ rest.
Proof.
  assert (∃ keyword tail,
    LANGUAGE_MATCHER
    = Cat Boundary (Cat (Group 1 keyword) (Cat (Lit COLON) tail)))
    as (keyword & tail & ->) by (by eexists _, _).
  unfold match_at. cbn [rmatch]. intros H.
  destruct (at_boundary _ _); [|done].
  apply rmatch_position in H as (s1 & [x Hx] & H). simpl in Hx.
  apply eat_Some in H as (c & t & Hs & Hc & _). simpl in Hs.
  apply N.eqb_eq in Hc as ->.
  rewrite Hx, Hs. apply elem_of_app. right. apply list_elem_of_here.
Qed.

(** The keyword group of a match holds the first characters of the match,
    which are, one for one, those of a keyword, the case apart. *)
Lemma LANGUAGE_MATCHER_keyword before rest m :
  match_at U true 4 LANGUAGE_MATCHER before rest = Some m →
  ∃ w kw rest',
    w ∈ KEYWORDS
    ∧ Forall2 (λ p c, ignorecase_matches p c = true) w kw
    ∧ rest = kw ++ rest'
    ∧ m_groups m !! 0%nat = Some (Some kw).
Proof.
  assert (∃ tail,
    LANGUAGE_MATCHER
    = Cat Boundary (Cat (Group 1 (Alt (lits (py "artist"))
                                 (Alt (lits (py "work")) (lits (py "title")))))
                        tail)
    ∧ group_ids tail = [2; 3; 4]%nat)
    as (tail & -> & Hids) by (by eexists).
  unfold match_at. cbn [rmatch]. intros H.
  destruct (at_boundary _ _); [|done].
  assert (Hone : ∃ w, w ∈ KEYWORDS
    ∧ rmatch U true (lits w)
        (λ s', rmatch U true tail Some
                 (set_group 1
                    (consumed {| m_prev := last before; m_rest := rest;
                                 m_groups := replicate 4 None |} s') s'))
        {| m_prev := last before; m_rest := rest;
           m_groups := replicate 4 None |} = Some m).
  { apply orelse_Some in H as [H|H]; [|apply orelse_Some in H as [H|H]];
      eexists; (split; [|exact H]); unfold KEYWORDS;
      rewrite !elem_of_cons; auto. }
  clear H. destruct Hone as (w & Hw & H).
  apply rmatch_lits in H as (x & s1 & Hx & Hall & Hg & H). simpl in Hx, Hg.
  apply rmatch_groups in H as (s2 & (_ & _ & Hframe) & [= <-]).
  exists w, x, (m_rest s1). split_and!; [done|done|done|].
  rewrite Hframe.
  - unfold consumed. simpl. rewrite Hg. simpl. do 2 f_equal.
    rewrite Hx, length_app.
    replace (length x + length (m_rest s1) - length (m_rest s1))%nat
      with (length x) by lia.
    by rewrite take_app_length.
  - rewrite Hids. intros i Hi. repeat apply elem_of_cons in Hi as [->|Hi];
      [done..|by apply elem_of_nil in Hi].
Qed.

Lemma ignorecase_matches_letter (p c : N) :
  is_ascii_lower p = true → ignorecase_matches p c = true →
  folds_to_ascii c = false → c = p ∨ c = (p - 32)%N.
Proof.
  unfold is_ascii_lower, ignorecase_matches, is_ascii_upper, folds_to_ascii.
  intros Hp. rewrite andb_true_iff, !N.leb_le in Hp.
  assert ((65 <=? p)%N && (p <=? 90)%N = false) as ->.
  { apply andb_false_iff. right. apply N.leb_gt. lia. }
  unfold is_ascii_lower. destruct Hp as [H1 H2].
  apply N.leb_le in H1, H2. rewrite H1, H2. simpl.
  rewrite !orb_true_iff, !orb_false_iff, !andb_true_iff, !N.eqb_eq.
  intros H (((H304 & H305) & H383) & H8490).
  apply N.eqb_neq in H304, H305, H383, H8490.
  destruct H as [[[H|[_ H]]|[_ H]]|[_ H]]; [done| |done..].
  apply orb_true_iff in H as [H|H]; by apply N.eqb_eq in H.
Qed.

Lemma isspace_letter (c : N) :
  (65 ≤ c ≤ 122)%N → isspace c = false.
Proof.
  intros [H1 H2]. unfold isspace.
  repeat match goal with
  | |- _ || _ = false => apply orb_false_intro
  | |- _ && _ = false => apply andb_false_iff
  end;
    first [ apply N.eqb_neq; lia
          | left; apply N.leb_gt; lia
          | right; apply N.leb_gt; lia ].
Qed.

(** The name of the list of a keyword spelled without the four non-ASCII
    look-alikes of the letters is the keyword, in lower case, in the plural. *)
Lemma keyword_target (w kw : pystr) :
  w ∈ KEYWORDS →
  Forall2 (λ p c, ignorecase_matches p c = true) w kw →
  Forall (λ c, folds_to_ascii c = false) kw →
  lower U (strip kw ++ py "s") = w ++ py "s".
Proof.
  intros Hw Hall Hkw.
  assert (Hlow : Forall (λ p, is_ascii_lower p = true) w).
  { unfold KEYWORDS in Hw.
    repeat apply elem_of_cons in Hw as [->|Hw];
      [by repeat constructor..|by apply elem_of_nil in Hw]. }
  assert (Hchars : Forall2 (λ p c, c = p ∨ c = (p - 32)%N) w kw).
  { clear Hw. induction Hall as [|p c w kw Hpc Hall IH]; [constructor|].
    apply Forall_cons in Hlow as [Hp Hlow].
    apply Forall_cons in Hkw as [Hc Hkw].
    constructor; [by apply ignorecase_matches_letter | by apply IH]. }
  assert (Hrange : ∀ p c, is_ascii_lower p = true →
                     c = p ∨ c = (p - 32)%N → (65 ≤ c ≤ 122)%N).
  { intros p c Hp Hc. unfold is_ascii_lower in Hp.
    rewrite andb_true_iff, !N.leb_le in Hp. lia. }
  assert (Hstrip : strip kw = kw).
  { apply strip_no_space. clear Hw Hall Hkw.
    induction Hchars as [|p c w kw Hpc _ IH]; [constructor|].
    apply Forall_cons in Hlow as [Hp Hlow]. constructor; [|by apply IH].
    eapply isspace_letter, Hrange; done. }
  rewrite Hstrip. unfold lower. rewrite bind_app. f_equal.
  clear Hw Hall Hkw Hstrip.
  induction Hchars as [|p c w kw Hpc _ IH]; [done|].
  apply Forall_cons in Hlow as [Hp Hlow]. cbn [mbind list_bind]. simpl.
  rewrite (IH Hlow). pose proof (Hrange p c Hp Hpc) as Hr.
  assert ((c <? 128)%N = true) as -> by (apply N.ltb_lt; lia).
  unfold is_ascii_lower in Hp. rewrite andb_true_iff, !N.leb_le in Hp.
  unfold is_ascii_upper. destruct Hpc as [->| ->].
  - assert ((65 <=? p)%N && (p <=? 90)%N = false) as ->; [|done].
    apply andb_false_iff. right. apply N.leb_gt. lia.
  - assert ((65 <=? p - 32)%N && (p - 32 <=? 90)%N = true) as ->.
    { apply andb_true_iff. rewrite !N.leb_le. lia. }
    simpl. f_equal. f_equal. lia.
Qed.
End KeywordFacts.

(** ** The parser, once more *)

Section ParserOutcomes.
Context (U : unicode_db).

Lemma parse_single_split (query : pystr) :
  LANGUAGE_MATCHER_split U query = [Some query] →
  parse U query
  = Return (<[py "remaining" := split_remaining query]> parse_init).
Proof.
  intros Hs. unfold parse. simpl. unfold parse_turn. rewrite Hs.
  destruct query as [|c query]; simpl.
  - apply (bool_decide_unpack _). by vm_compute.
  - unfold dict_extend.
    replace (parse_init !! py "remaining") with (Some (@nil pystr))
      by (apply (bool_decide_unpack _); by vm_compute).
    done.
Qed.

Lemma keyword_occurs_colon (query : pystr) :
  keyword_occurs U query → COLON ∈ query.
Proof.
  intros (before & rest & -> & [m Hm]).
  apply LANGUAGE_MATCHER_colon in Hm. apply elem_of_app. by right.
Qed.

Lemma dict_extend_Return (key : pystr) (items : list pystr)
    (d : gmap pystr (list pystr)) :
  key ∈ dom d → ∃ d', dict_extend key items d = Return d' ∧ dom d' = dom d.
Proof.
  intros [l Hl]%elem_of_dom. unfold dict_extend. rewrite Hl.
  eexists. split; [done|]. by apply dom_insert_lookup_L.
Qed.

Lemma dict_get_append_Return (key item : pystr)
    (d : gmap pystr (list pystr)) :
  key ∈ dom d → ∃ d', dict_get_append key item d = Return d' ∧ dom d' = dom d.
Proof.
  intros [l Hl]%elem_of_dom. unfold dict_get_append. rewrite Hl.
  eexists. split; [done|]. by apply dom_insert_lookup_L.
Qed.

Lemma keyword_keys (w : pystr) :
  w ∈ KEYWORDS →
  w ++ py "s" ∈ parse_keys ∧ (w ++ py "s") ++ py "_exact" ∈ parse_keys.
Proof.
  unfold KEYWORDS. intros Hw.
  repeat apply elem_of_cons in Hw as [->|Hw];
    [..|by apply elem_of_nil in Hw];
    split; apply (bool_decide_unpack _); by vm_compute.
Qed.

(** One turn on a query without the four look-alikes, from a dictionary
    with the keys of [parse]: it returns, or raises the inconsistency fault. *)
Lemma parse_turn_outcomes (query : pystr) (result : gmap pystr (list pystr)) :
  Forall (λ c, folds_to_ascii c = false) query →
  dom result = list_to_set parse_keys →
  (∃ result' next, parse_turn U query result = Return (result', next)
     ∧ dom result' = list_to_set parse_keys
     ∧ ∀ query', next = Some query' →
         Forall (λ c, folds_to_ascii c = false) query')
  ∨ parse_turn U query result = Raise (ValueError "Inconsistency").
Proof.
  intros Hq Hdom.
  assert (Hrem : ∀ items, ∃ d',
    dict_extend (py "remaining") items result = Return d'
    ∧ dom d' = list_to_set parse_keys).
  { intros items.
    destruct (dict_extend_Return (py "remaining") items result)
      as (d' & ? & ?); [|exists d'; split; congruence].
    rewrite Hdom, elem_of_list_to_set.
    apply (bool_decide_unpack _). by vm_compute. }
  assert (Hrem' : ∀ remaining, ∃ d',
    (if truthy remaining
     then dict_extend (py "remaining") (split_remaining remaining) result
     else Return result) = Return d'
    ∧ dom d' = list_to_set parse_keys).
  { intros remaining. destruct (truthy remaining); [apply Hrem|by eauto]. }
  destruct (LANGUAGE_MATCHER_split_shape U query)
    as [Hs|(s0 & s1 & v & s5 & Hs)].
  { left. unfold parse_turn. rewrite Hs.
    destruct (Hrem' query) as (d' & -> & ?). simpl.
    exists d', None. by split_and!. }
  assert (Hmatch : ∃ g2 g3 g4,
    LANGUAGE_MATCHER_split U query
    = [Some s0; Some s1; g2; g3; g4; Some s5])
    by (destruct Hs as [?|[?|?]]; eauto).
  destruct Hmatch as (g2 & g3 & g4 & Hmatch).
  apply LANGUAGE_MATCHER_split_match in Hmatch
    as (matched & m & Hquery & _ & Hat & _ & Hgroups & _).
  apply LANGUAGE_MATCHER_keyword in Hat
    as (w & kw & rest' & Hw & Hall & Hrest & Hkw).
  rewrite Hgroups in Hkw. simpl in Hkw. injection Hkw as <-.
  assert (Hq1 : Forall (λ c, folds_to_ascii c = false) s1).
  { rewrite Hquery, Hrest in Hq.
    by apply Forall_app in Hq as [_ [? _]%Forall_app]. }
  assert (Hq5 : Forall (λ c, folds_to_ascii c = false) (strip s5)).
  { rewrite Hquery in Hq. apply Forall_app in Hq as [_ [_ Hq]%Forall_app].
    rewrite Forall_forall in Hq. apply Forall_forall.
    intros c Hc%strip_elem. by apply Hq. }
  pose proof (keyword_target U w s1 Hw Hall Hq1) as Htarget.
  destruct (keyword_keys w Hw) as [Hk1 Hk2].
  destruct (Hrem' (strip s0)) as (d1 & Hd1 & Hdom1).
  assert (Happend : ∀ key item, key ∈ parse_keys → ∃ d',
    dict_get_append key item d1 = Return d'
    ∧ dom d' = list_to_set parse_keys).
  { intros key item Hkey.
    destruct (dict_get_append_Return key item d1) as (d' & ? & ?);
      [|exists d'; split; congruence].
    by rewrite Hdom1, elem_of_list_to_set. }
  unfold parse_turn.
  destruct Hs as [Hs|[Hs|Hs]]; rewrite Hs; cbn zeta;
    rewrite Htarget, Hd1; simpl;
    repeat match goal with
    | |- context [if ?b then _ else _] => destruct b eqn:?
    end; simpl; auto;
    match goal with
    | |- context [dict_get_append ?k ?i d1] =>
        destruct (Happend k i) as (d2 & -> & ?); [done|]
    end; simpl; left; eexists _, _; split_and!; try done;
    by intros ? [= <-].
Qed.

Lemma parse_loop_outcomes (fuel : nat) : ∀ query result,
  Forall (λ c, folds_to_ascii c = false) query →
  dom result = list_to_set parse_keys →
  (∃ d, parse_loop U fuel query result = Return d)
  ∨ parse_loop U fuel query result = Raise (ValueError "Inconsistency")
  ∨ parse_loop U fuel query result = OutOfFuel.
Proof.
  induction fuel as [|fuel IH]; intros query result Hq Hdom; simpl; [auto|].
  destruct (parse_turn_outcomes query result Hq Hdom)
    as [(result' & next & -> & Hdom' & Hnext)| ->]; simpl; [|auto].
  destruct next as [query'|]; [|by eauto]. by apply IH; auto.
Qed.
End ParserOutcomes.

(** X7. A query without a colon is free text: [parse] returns the tokens of
    the query as remaining and leaves every list of every category empty. *)
Theorem parse_without_colon (U : unicode_db) (query : pystr) :
  COLON ∉ query →
  parse U query
  = Return (<[py "remaining" := split_remaining query]> parse_init).
Proof.
  intros Hcolon. apply parse_single_split, LANGUAGE_MATCHER_split_no_keyword.
  by intros ?%keyword_occurs_colon.
Qed.

Lemma parse_without_colon_witness :
  (COLON ∉ py "artist foo")
  ∧ parse ucd (py "artist foo")
    = Return (<[py "remaining" := [py "artist"; py "foo"]]> parse_init).
Proof.
  assert (H : COLON ∉ py "artist foo")
    by (apply (bool_decide_unpack _); vm_compute; exact I).
  split; [exact H|]. exact (parse_without_colon ucd _ H).
Defined.

(** X8. On a query that holds none of the four non-ASCII look-alikes of the
    letters i, s and k, [parse] returns a dictionary or raises the
    inconsistency fault: it raises nothing else. *)
Theorem parse_outcomes (U : unicode_db) (query : pystr) :
  Forall (λ c, folds_to_ascii c = false) query →
  (∃ d, parse U query = Return d)
  ∨ parse U query = Raise (ValueError "Inconsistency").
Proof.
  intros Hq. unfold parse.
  destruct (parse_loop_outcomes U (S (length query)) query parse_init Hq)
    as [?|[?|Hfuel]]; [apply parse_init_dom|auto..|].
  by destruct (parse_loop_enough U (S (length query)) query parse_init)
    as [? _]; [lia|].
Qed.

Lemma parse_outcomes_witness :
  Forall (λ c, folds_to_ascii c = false) (py "Artist:x")
  ∧ ((∃ d, parse ucd (py "Artist:x") = Return d)
     ∨ parse ucd (py "Artist:x") = Raise (ValueError "Inconsistency")).
Proof.
  assert (H : Forall (λ c, folds_to_ascii c = false) (py "Artist:x"))
    by (vm_compute; repeat constructor).
  split; [exact H|]. exact (parse_outcomes ucd _ H).
Defined.

Lemma lstrip_idemp (s : pystr) : lstrip (lstrip s) = lstrip s.
Proof.
  induction s as [|c s IH]; simpl; [done|].
  destruct (isspace c) eqn:Hc; [done|]. simpl. by rewrite Hc.
Qed.

Lemma lstrip_head (s : pystr) (c : N) (t : pystr) :
  lstrip s = c :: t → isspace c = false.
Proof.
  induction s as [|c' s IH]; simpl; [done|].
  destruct (isspace c') eqn:Hc; [done|]. by intros [= <- _].
Qed.

(** Stripping twice is stripping once. *)
Lemma strip_idemp (s : pystr) : strip (strip s) = strip s.
Proof.
  unfold strip, rstrip.
  set (u := lstrip s).
  destruct (lstrip_suffix (reverse u)) as [k Hk].
  set (v := lstrip (reverse u)) in *.
  assert (Hv : lstrip (reverse v) = reverse v).
  { destruct (reverse v) as [|c t] eqn:Hrv; [done|].
    assert (Hu : u = c :: t ++ reverse k).
    { rewrite <-(reverse_involutive u), Hk, reverse_app, Hrv. done. }
    apply lstrip_head in Hu. simpl. by rewrite Hu. }
  rewrite Hv, reverse_involutive. unfold v. by rewrite lstrip_idemp.
Qed.

Lemma exact_key_not_contains (target : pystr) :
  target ++ py "_exact"
  ∉ [py "artists"; py "works"; py "titles"; py "remaining"].
Proof.
  intros Hin.
  assert (Hlast : last (target ++ py "_exact") = Some 116%N)
    by (by rewrite last_app).
  repeat apply elem_of_cons in Hin as [Heq|Hin];
    [..|by apply elem_of_nil in Hin];
    rewrite Heq in Hlast; by vm_compute in Hlast.
Qed.

Lemma dict_extend_well_formed (items : list pystr)
    (d d' : gmap pystr (list pystr)) :
  dict_extend (py "remaining") items d = Return d' →
  well_formed_terms d →
  Forall (λ v, v ≠ [] ∧ BACKSLASH ∉ v) items →
  well_formed_terms d'.
Proof.
  unfold dict_extend. destruct (d !! py "remaining") as [l0|] eqn:Hl0; [|done].
  intros [= <-] Hd Hitems k l v Hl Hv.
  destruct (decide (k = py "remaining")) as [->|Hk].
  - rewrite lookup_insert_eq in Hl. injection Hl as <-.
    apply elem_of_app in Hv as [Hv|Hv].
    + by apply (Hd _ _ _ Hl0).
    + rewrite Forall_forall in Hitems. destruct (Hitems v Hv). by split_and!.
  - rewrite lookup_insert_ne in Hl by done. by apply (Hd _ _ _ Hl).
Qed.

Lemma dict_get_append_well_formed (key item : pystr)
    (d d' : gmap pystr (list pystr)) :
  dict_get_append key item d = Return d' →
  well_formed_terms d →
  item ≠ [] → strip item = item →
  (key ∈ [py "artists"; py "works"; py "titles"; py "remaining"] →
   BACKSLASH ∉ item) →
  well_formed_terms d'.
Proof.
  unfold dict_get_append. destruct (d !! key) as [l0|] eqn:Hl0; [|done].
  intros [= <-] Hd Hne Hstrip Hbs k l v Hl Hv.
  destruct (decide (k = key)) as [->|Hk].
  - rewrite lookup_insert_eq in Hl. injection Hl as <-.
    apply elem_of_app in Hv as [Hv|Hv%list_elem_of_singleton].
    + by apply (Hd _ _ _ Hl0).
    + subst v. by split_and!.
  - rewrite lookup_insert_ne in Hl by done. by apply (Hd _ _ _ Hl).
Qed.

Lemma parse_turn_well_formed (U : unicode_db) (query : pystr)
    (result result' : gmap pystr (list pystr)) (next : option pystr) :
  parse_turn U query result = Return (result', next) →
  well_formed_terms result → well_formed_terms result'.
Proof.
  assert (Htok : ∀ s, Forall (λ v, v ≠ [] ∧ BACKSLASH ∉ v) (split_remaining s)).
  { intros s. apply Forall_forall. intros v. apply split_remaining_tokens. }
  unfold parse_turn. intros H Hres.
  repeat case_match; simplify_eq/=;
    repeat match goal with
    | H : bind ?x _ = Return _ |- _ => destruct x eqn:?; simplify_eq/=
    end;
    repeat match goal with
    | H : dict_extend _ _ _ = Return _ |- _ =>
        eapply dict_extend_well_formed in H; [|done|by apply Htok]
    end;
    try done;
    match goal with
    | H : dict_get_append _ ?item _ = Return _ |- _ =>
        eapply dict_get_append_well_formed in H; [done|done|..]
    end;
    try (by apply strip_idemp);
    try (by intros ?%exact_key_not_contains);
    try (intros _ ?%strip_elem%list_elem_of_filter; by intuition);
    match goal with
    | H : truthy ?s && _ = true |- ?s ≠ [] =>
        apply andb_true_iff in H as [H _]; by destruct s
    end.
Qed.

Lemma parse_loop_well_formed (U : unicode_db) (fuel : nat) :
  ∀ query result result',
    parse_loop U fuel query result = Return result' →
    well_formed_terms result → well_formed_terms result'.
Proof.
  induction fuel as [|fuel IH]; intros query result result'; simpl; [done|].
  destruct (parse_turn U query result) as [[r [q|]]| |] eqn:Hturn;
    simpl; try done.
  - intros H Hres. eapply IH; [done|]. by eapply parse_turn_well_formed.
  - intros [= <-] Hres. by eapply parse_turn_well_formed.
Qed.

(** X9. The terms that [parse] returns are well formed: no stored string is
    empty; the remaining tokens and the values to match partially hold no
    backslash; the values of the categories have no white space at their
    ends. *)
Theorem parse_well_formed (U : unicode_db) (query : pystr)
    (d : gmap pystr (list pystr)) :
  parse U query = Return d → well_formed_terms d.
Proof.
  intros H. eapply parse_loop_well_formed; [exact H|].
  intros k l v Hl Hv.
  assert (l = []) as ->; [|by apply elem_of_nil in Hv].
  unfold parse_init in Hl.
  repeat (apply lookup_insert_Some in Hl as [[_ <-]|[_ Hl]]; [done|]).
  by rewrite lookup_empty in Hl.
Qed.

Lemma parse_well_formed_witness :
  parse ucd ex_artist_title
  = Return (<[py "artists" := [py "Foo"]]>
           (<[py "titles" := [py "Bar Baz"]]> parse_init))
  ∧ well_formed_terms (<[py "artists" := [py "Foo"]]>
                      (<[py "titles" := [py "Bar Baz"]]> parse_init)).
Proof.
  assert (H : parse ucd ex_artist_title
              = Return (<[py "artists" := [py "Foo"]]>
                       (<[py "titles" := [py "Bar Baz"]]> parse_init)))
    by run.
  split; [exact H|]. exact (parse_well_formed ucd _ _ H).
Defined.

(** A stripped text is a part of the text. *)
Lemma strip_infix (s : pystr) : ∃ a b, s = a ++ strip s ++ b.
Proof.
  destruct (lstrip_suffix s) as [a Ha].
  destruct (lstrip_suffix (reverse (lstrip s))) as [b Hb].
  exists a, (reverse b). unfold strip, rstrip. rewrite <-reverse_app, <-Hb.
  by rewrite reverse_involutive.
Qed.

(** A fault of the loop is the fault of one turn, on a part of the query. *)
Lemma parse_loop_raise (U : unicode_db) (e : exn) (fuel : nat) :
  ∀ query result,
    parse_loop U fuel query result = Raise e →
    ∃ query' result' a b,
      query = a ++ query' ++ b ∧ parse_turn U query' result' = Raise e.
Proof.
  induction fuel as [|fuel IH]; intros query result; simpl; [done|].
  destruct (parse_turn U query result) as [[r [q|]]|e'|] eqn:Hturn;
    simpl; try done.
  - intros (query' & result' & a & b & Hq & Hr)%IH.
    apply parse_turn_continue in Hturn
      as (before & matched & after & -> & _ & _ & _ & Hafter).
    destruct (strip_infix after) as (a' & b' & Ha).
    exists query', result', (before ++ matched ++ a' ++ a), (b ++ b').
    split; [|done]. rewrite Ha at 1. rewrite <-Hafter, Hq.
    by rewrite <-!(assoc_L (++)).
  - intros [= ->]. exists query, result, [], []. by rewrite app_nil_r.
Qed.

(** X10. When [parse] raises the inconsistency fault, some part of the query
    starts a keyword pattern of which the value is blank. The fault never
    comes from a contains value and an exact value set together. *)
Theorem parse_inconsistency (U : unicode_db) (query : pystr) :
  parse U query = Raise (ValueError "Inconsistency") →
  ∃ a query' b, query = a ++ query' ++ b ∧ blank_value U query'.
Proof.
  intros (query' & result' & a & b & Hq & Hr)%parse_loop_raise.
  exists a, query', b. split; [done|]. by eapply parse_turn_inconsistency.
Qed.

Lemma parse_inconsistency_witness :
  parse ucd ex_blank_quoted = Raise (ValueError "Inconsistency")
  ∧ ∃ a query' b,
      ex_blank_quoted = a ++ query' ++ b ∧ blank_value ucd query'.
Proof.
  assert (H : parse ucd ex_blank_quoted = Raise (ValueError "Inconsistency"))
    by run.
  split; [exact H|]. exact (parse_inconsistency ucd _ H).
Defined.

Lemma keyword_length (w : pystr) : w ∈ KEYWORDS → length w ≤ 6.
Proof.
  unfold KEYWORDS. intros Hw.
  repeat apply elem_of_cons in Hw as [->|Hw];
    [..|by apply elem_of_nil in Hw]; simpl; lia.
Qed.

(** X11. The split of a query around its first keyword pattern. It is the
    query alone, or six items: the text before the match; the keyword as it
    is spelled in the query, which starts the match and is one of the three
    keywords, the case apart; the three value groups, exactly one of which
    is set; the text after the match. *)
Theorem LANGUAGE_MATCHER_split_anatomy (U : unicode_db) (query : pystr) :
  LANGUAGE_MATCHER_split U query = [Some query]
  ∨ ∃ split0 w kw tail v split5,
      query = split0 ++ kw ++ tail ++ split5
      ∧ w ∈ KEYWORDS
      ∧ Forall2 (λ p c, ignorecase_matches p c = true) w kw
      ∧ (LANGUAGE_MATCHER_split U query
         = [Some split0; Some kw; Some v; None; None; Some split5]
         ∨ LANGUAGE_MATCHER_split U query
           = [Some split0; Some kw; None; Some v; None; Some split5]
         ∨ LANGUAGE_MATCHER_split U query
           = [Some split0; Some kw; None; None; Some v; Some split5]).
Proof.
  unfold LANGUAGE_MATCHER_split, re_split1.
  destruct (search_from _ _ _ _ _ _) as [[b m]|] eqn:Hs; [|by left].
  right. apply search_from_Some in Hs as (sk & rest & Hb & -> & Hat & _).
  simpl in Hb. subst sk.
  destruct (match_at_advances _ _ _ _ _ _ _ Hat) as (matched & Hrest & Hlen).
  destruct (LANGUAGE_MATCHER_keyword _ _ _ _ Hat)
    as (w & kw & rest' & Hw & Hall & Hkw & Hg0).
  destruct (LANGUAGE_MATCHER_groups _ _ _ _ Hat) as (kw' & v & Hg).
  assert (kw' = kw) as ->.
  { destruct Hg as [Hg|[Hg|Hg]]; rewrite Hg in Hg0; by injection Hg0. }
  assert (Hpre : matched = kw ++ drop (length kw) matched).
  { rewrite <-(take_drop (length kw) matched) at 1. f_equal.
    pose proof (keyword_length _ Hw) as Hlw.
    pose proof (Forall2_length _ _ _ Hall) as Hl.
    rewrite LANGUAGE_MATCHER_min_len in Hlen.
    rewrite <-(take_app_le matched (m_rest m)) by lia.
    rewrite <-Hrest, Hkw. by rewrite take_app_length. }
  exists b, w, kw, (drop (length kw) matched), v, (m_rest m).
  split_and!; [|done|done|].
  - rewrite Hrest, Hpre at 1. by rewrite <-!(assoc_L (++)).
  - destruct Hg as [-> | [-> | ->]]; auto.
Qed.

(** ** A keyword and its value *)

Section KeywordValues.
Context (U : unicode_db).

Lemma LANGUAGE_MATCHER_items :
  LANGUAGE_MATCHER
  = Cat Boundary (Cat (Group 1 (alts (lits <$> KEYWORDS)))
      (Cat (Lit COLON) (Cat (Opt Space) value_pattern))).
Proof. reflexivity. Qed.

Lemma consumed_app (s s' : mstate) (x : pystr) :
  m_rest s = x ++ m_rest s' → consumed s s' = x.
Proof.
  intros H. unfold consumed. rewrite H, length_app.
  replace (length x + length (m_rest s') - length (m_rest s'))
    with (length x) by lia.
  apply take_app_length.
Qed.

(** A literal string matches itself. *)
Lemma rmatch_lits_forward (w rest : pystr) (k : mstate → option mstate)
    (g : list (option pystr)) : ∀ prev,
  w ≠ [] → Forall (λ p, ignorecase_matches p p = true) w →
  rmatch U true (lits w) k
    {| m_prev := prev; m_rest := w ++ rest; m_groups := g |}
  = k {| m_prev := last w; m_rest := rest; m_groups := g |}.
Proof.
  induction w as [|p w IH]; intros prev Hne Hall; [done|].
  apply Forall_cons in Hall as [Hp Hall].
  destruct w as [|p' w].
  - simpl. unfold eat, lit_matches. simpl. by rewrite Hp.
  - change (lits (p :: p' :: w)) with (Cat (Lit p) (lits (p' :: w))).
    cbn [rmatch]. unfold eat at 1, lit_matches. simpl m_rest.
    cbn [app]. rewrite Hp. cbn [m_groups].
    change (p' :: w ++ rest) with ((p' :: w) ++ rest).
    by rewrite IH.
Qed.

(** The keyword group matches a keyword in lower case. *)
Lemma rmatch_keyword_forward (w rest : pystr) (k : mstate → option mstate)
    (prev : option N) (g : list (option pystr)) (m : mstate) :
  w ∈ KEYWORDS →
  k (set_group 1 w {| m_prev := last w; m_rest := rest; m_groups := g |})
  = Some m →
  rmatch U true (Group 1 (alts (lits <$> KEYWORDS))) k
    {| m_prev := prev; m_rest := w ++ rest; m_groups := g |} = Some m.
Proof.
  intros Hw Hk.
  change (alts (lits <$> KEYWORDS))
    with (Alt (lits (py "artist")) (Alt (lits (py "work")) (lits (py "title")))).
  cbn [rmatch]. unfold KEYWORDS in Hw.
  assert (Hself : ∀ w', w' ∈ [py "artist"; py "work"; py "title"] →
            w' ≠ [] ∧ Forall (λ p, ignorecase_matches p p = true) w').
  { intros w' Hw'. repeat apply elem_of_cons in Hw' as [->|Hw'];
      [..|by apply elem_of_nil in Hw']; by repeat constructor. }
  destruct (Hself w Hw) as [Hne Hall].
  assert (Hhit : rmatch U true (lits w)
            (λ s', k (set_group 1
                        (consumed {| m_prev := prev; m_rest := w ++ rest;
                                     m_groups := g |} s') s'))
            {| m_prev := prev; m_rest := w ++ rest; m_groups := g |} = Some m).
  { rewrite rmatch_lits_forward by done.
    by rewrite (consumed_app _ _ w). }
  repeat apply elem_of_cons in Hw as [->|Hw]; [..|by apply elem_of_nil in Hw].
  - by rewrite Hhit.
  - replace (rmatch U true (lits (py "artist")) _ _) with (@None mstate)
      by reflexivity.
    cbn [orelse]. by rewrite Hhit.
  - replace (rmatch U true (lits (py "artist")) _ _) with (@None mstate)
      by reflexivity.
    replace (rmatch U true (lits (py "work")) _ _) with (@None mstate)
      by reflexivity.
    exact Hhit.
Qed.

(** The pattern at the start of a keyword in lower case, a colon and a
    character that is no white space: what is left to match is the value. *)
Lemma LANGUAGE_MATCHER_forward (w : pystr) (c : N) (t : pystr) (m : mstate) :
  w ∈ KEYWORDS → isspace c = false →
  rmatch U true value_pattern Some
    {| m_prev := Some COLON; m_rest := c :: t;
       m_groups := [Some w; None; None; None] |} = Some m →
  match_at U true 4 LANGUAGE_MATCHER [] (w ++ COLON :: c :: t) = Some m.
Proof.
  intros Hw Hc Hm. unfold match_at. rewrite LANGUAGE_MATCHER_items.
  cbn [rmatch].
  assert (at_boundary U {| m_prev := last []; m_rest := w ++ COLON :: c :: t;
                           m_groups := replicate 4 None |} = true) as ->.
  { unfold KEYWORDS in Hw.
    repeat apply elem_of_cons in Hw as [->|Hw];
      [..|by apply elem_of_nil in Hw]; reflexivity. }
  apply rmatch_keyword_forward; [done|].
  unfold set_group, eat. simpl. by rewrite Hc.
Qed.

Lemma plain_char_step (k : mstate → option mstate) (c : N) (t : pystr)
    (prev : option N) (g : list (option pystr)) :
  isspace c = false → Forall (λ x, isspace x = false) t →
  rmatch U true (Alt (Cat (Lit BACKSLASH) Space) NotSpace) k
    {| m_prev := prev; m_rest := c :: t; m_groups := g |}
  = k {| m_prev := Some c; m_rest := t; m_groups := g |}.
Proof.
  intros Hc Ht. cbn [rmatch]. unfold eat at 1 3. simpl. rewrite Hc. simpl.
  destruct (ignorecase_matches BACKSLASH c); [|done].
  unfold eat. simpl. destruct Ht as [|x t Hx _]; [done|]. by rewrite Hx.
Qed.

(** The run of a plain value takes all the characters up to the end of the
    subject when none is a white space. *)
Lemma repeat_greedy_plain (k : mstate → option mstate)
    (g : list (option pystr)) (m : mstate) : ∀ value n prev,
  value ≠ [] → Forall (λ x, isspace x = false) value → length value < n →
  k {| m_prev := last value; m_rest := []; m_groups := g |} = Some m →
  repeat_greedy (rmatch U true (Alt (Cat (Lit BACKSLASH) Space) NotSpace)) k n
    {| m_prev := prev; m_rest := value; m_groups := g |} = Some m.
Proof.
  induction value as [|c t IH]; intros n prev Hne Hall Hn Hk; [done|].
  apply Forall_cons in Hall as [Hc Ht].
  destruct n as [|n]; [simpl in Hn; lia|].
  set (body := rmatch U true (Alt (Cat (Lit BACKSLASH) Space) NotSpace)).
  set (s := {| m_prev := prev; m_rest := c :: t; m_groups := g |}).
  change (repeat_greedy body k (S n) s)
    with (body (λ s', if progressed s s'
                      then orelse (repeat_greedy body k n s') (k s')
                      else k s') s).
  unfold body at 1, s at 2. rewrite plain_char_step by done.
  assert (progressed s {| m_prev := Some c; m_rest := t; m_groups := g |}
          = true) as ->.
  { unfold progressed, s. simpl. apply Nat.ltb_lt. lia. }
  destruct t as [|c2 t].
  - simpl in Hk. rewrite Hk.
    by replace (repeat_greedy body k n _) with (@None mstate)
      by (by destruct n).
  - unfold body.
    rewrite (IH n (Some c)); [done|done|done|simpl in *; lia|done].
Qed.

(** The lazy run of a quoted value stops at the first double quote, when
    the rest of the pattern starts with a double quote and matches there. *)
Lemma repeat_lazy_quoted (k : mstate → option mstate)
    (g : list (option pystr)) (tail : pystr) (m : mstate) : ∀ value n prev,
  value ≠ [] → Forall (λ x, x ≠ 10%N ∧ x ≠ QUOTE) value → length value < n →
  (∀ s' x r, m_rest s' = x :: r → x ≠ QUOTE → k s' = None) →
  k {| m_prev := last value; m_rest := QUOTE :: tail; m_groups := g |}
  = Some m →
  repeat_lazy (rmatch U true AnyChar) k n
    {| m_prev := prev; m_rest := value ++ QUOTE :: tail; m_groups := g |}
  = Some m.
Proof.
  induction value as [|c t IH]; intros n prev Hne Hall Hn Hfail Hk; [done|].
  apply Forall_cons in Hall as [[Hc Hcq] Ht].
  destruct n as [|n]; [simpl in Hn; lia|].
  set (body := rmatch U true AnyChar).
  set (s := {| m_prev := prev; m_rest := (c :: t) ++ QUOTE :: tail;
               m_groups := g |}).
  change (repeat_lazy body k (S n) s)
    with (body (λ s', if progressed s s'
                      then orelse (k s') (repeat_lazy body k n s')
                      else k s') s).
  unfold body at 1, s at 2. cbn [rmatch]. unfold eat. simpl.
  assert ((c =? 10)%N = false) as -> by (by apply N.eqb_neq).
  simpl.
  assert (progressed s {| m_prev := Some c; m_rest := t ++ QUOTE :: tail;
                          m_groups := g |} = true) as ->.
  { unfold progressed, s. simpl. apply Nat.ltb_lt. lia. }
  destruct t as [|c2 t].
  - simpl in *. by rewrite Hk.
  - apply Forall_cons in Ht as [[Hc2 Hc2q] Ht].
    rewrite (Hfail _ c2 (t ++ QUOTE :: tail)) by done. cbn [orelse].
    unfold body. rewrite (IH n (Some c)); [done|done| |simpl in *; lia|done|done].
    by constructor.
Qed.

Lemma lit_quote (x : N) : lit_matches true QUOTE x = (x =? QUOTE)%N.
Proof. reflexivity. Qed.

(** A plain value: the third way matches it whole. *)
Lemma value_pattern_plain (w value : pystr) (c : N) (t : pystr) :
  value = c :: t → c ≠ QUOTE → Forall (λ x, isspace x = false) value →
  rmatch U true value_pattern Some
    {| m_prev := Some COLON; m_rest := value;
       m_groups := [Some w; None; None; None] |}
  = Some {| m_prev := last value; m_rest := [];
            m_groups := [Some w; None; None; Some value] |}.
Proof.
  intros Hv Hc Hall.
  assert (Hq : (c =? QUOTE)%N = false) by (by apply N.eqb_neq).
  set (s := {| m_prev := Some COLON; m_rest := value;
               m_groups := [Some w; None; None; None] |}).
  assert (Hways : rmatch U true value_pattern Some s
    = orelse (eat (lit_matches true QUOTE)
                (rmatch U true (cats [Lit QUOTE; Group 2 (PlusLazy AnyChar);
                                      Lit QUOTE; Lit QUOTE]) Some) s)
        (orelse (eat (lit_matches true QUOTE)
                   (rmatch U true (cats [Group 3 (PlusLazy AnyChar);
                                         Lit QUOTE]) Some) s)
           (repeat_greedy
              (rmatch U true (Alt (Cat (Lit BACKSLASH) Space) NotSpace))
              (λ s', Some (set_group 4 (consumed s s') s'))
              (S (length value)) s))) by reflexivity.
  rewrite Hways. unfold eat, s. cbn [m_rest]. rewrite Hv at 1 2.
  rewrite lit_quote, Hq. cbn [orelse].
  apply repeat_greedy_plain; [by rewrite Hv|done|simpl; lia|].
  unfold set_group. cbn [m_prev m_rest m_groups].
  rewrite (consumed_app _ _ value) by (by rewrite app_nil_r). done.
Qed.

(** A value between double quotes: the second way matches up to the closing
    quote. *)
Lemma value_pattern_quoted (w value tail : pystr) :
  value ≠ [] → Forall (λ x, x ≠ 10%N ∧ x ≠ QUOTE) value →
  rmatch U true value_pattern Some
    {| m_prev := Some COLON; m_rest := dq ++ value ++ dq ++ tail;
       m_groups := [Some w; None; None; None] |}
  = Some {| m_prev := Some QUOTE; m_rest := tail;
            m_groups := [Some w; None; Some value; None] |}.
Proof.
  intros Hne Hall.
  set (g := [Some w; None; None; None]).
  set (s1 := {| m_prev := Some QUOTE; m_rest := value ++ QUOTE :: tail;
                m_groups := g |}).
  assert (Hways : rmatch U true value_pattern Some
                    {| m_prev := Some COLON; m_rest := dq ++ value ++ dq ++ tail;
                       m_groups := g |}
    = orelse (eat (lit_matches true QUOTE)
                (rmatch U true (cats [Group 2 (PlusLazy AnyChar);
                                      Lit QUOTE; Lit QUOTE]) Some) s1)
        (orelse (repeat_lazy (rmatch U true AnyChar)
                   (λ s', eat (lit_matches true QUOTE) Some
                            (set_group 3 (consumed s1 s') s'))
                   (S (length (value ++ QUOTE :: tail))) s1)
           (rmatch U true
              (Group 4 (Plus (Alt (Cat (Lit BACKSLASH) Space) NotSpace))) Some
              {| m_prev := Some COLON; m_rest := dq ++ value ++ dq ++ tail;
                 m_groups := g |}))) by reflexivity.
  rewrite Hways. clear Hways.
  assert (eat (lit_matches true QUOTE)
            (rmatch U true (cats [Group 2 (PlusLazy AnyChar);
                                  Lit QUOTE; Lit QUOTE]) Some) s1 = None) as ->.
  { unfold eat, s1. cbn [m_rest]. destruct value as [|c t]; [done|].
    apply Forall_cons in Hall as [[_ Hc] _]. cbn [app].
    rewrite lit_quote. by apply N.eqb_neq in Hc as ->. }
  cbn [orelse]. unfold s1 at 2.
  rewrite (repeat_lazy_quoted _ _ _
             {| m_prev := Some QUOTE; m_rest := tail;
                m_groups := [Some w; None; Some value; None] |});
    [done|done|done|rewrite length_app; simpl; lia| |].
  - intros s' x r Hr Hx. unfold eat, set_group. cbn [m_rest]. rewrite Hr.
    rewrite lit_quote. by apply N.eqb_neq in Hx as ->.
  - unfold eat, set_group. cbn [m_rest m_prev m_groups].
    rewrite (consumed_app _ _ value) by done. done.
Qed.

(** A value between doubled double quotes: the first way matches up to the
    closing quotes. *)
Lemma value_pattern_exact (w value tail : pystr) :
  value ≠ [] → Forall (λ x, x ≠ 10%N ∧ x ≠ QUOTE) value →
  rmatch U true value_pattern Some
    {| m_prev := Some COLON;
       m_rest := dq ++ dq ++ value ++ dq ++ dq ++ tail;
       m_groups := [Some w; None; None; None] |}
  = Some {| m_prev := Some QUOTE; m_rest := tail;
            m_groups := [Some w; Some value; None; None] |}.
Proof.
  intros Hne Hall.
  set (g := [Some w; None; None; None]).
  set (s1 := {| m_prev := Some QUOTE;
                m_rest := value ++ QUOTE :: QUOTE :: tail; m_groups := g |}).
  set (s0 := {| m_prev := Some COLON;
                m_rest := dq ++ dq ++ value ++ dq ++ dq ++ tail;
                m_groups := g |}).
  assert (Hways : rmatch U true value_pattern Some s0
    = orelse (repeat_lazy (rmatch U true AnyChar)
                (λ s', eat (lit_matches true QUOTE)
                         (eat (lit_matches true QUOTE) Some)
                         (set_group 2 (consumed s1 s') s'))
                (S (length (value ++ QUOTE :: QUOTE :: tail))) s1)
        (rmatch U true
           (alts [cats [Lit QUOTE; Group 3 (PlusLazy AnyChar); Lit QUOTE];
                  Group 4 (Plus (Alt (Cat (Lit BACKSLASH) Space) NotSpace))])
           Some s0)) by reflexivity.
  rewrite Hways. clear Hways. unfold s1 at 2.
  rewrite (repeat_lazy_quoted _ _ _
             {| m_prev := Some QUOTE; m_rest := tail;
                m_groups := [Some w; Some value; None; None] |});
    [done|done|done|rewrite length_app; simpl; lia| |].
  - intros s' x r Hr Hx. unfold eat at 1, set_group. cbn [m_rest]. rewrite Hr.
    rewrite lit_quote. by apply N.eqb_neq in Hx as ->.
  - unfold eat, set_group. cbn [m_rest m_prev m_groups].
    rewrite (consumed_app _ _ value) by done. done.
Qed.
End KeywordValues.

Section KeywordQueries.
Context (U : unicode_db).

Lemma search_from_here (before rest : pystr) (m : mstate) :
  match_at U true 4 LANGUAGE_MATCHER before rest = Some m →
  search_from U true 4 LANGUAGE_MATCHER before rest = Some (before, m).
Proof. intros H. destruct rest; simpl; by rewrite H. Qed.

(** The split of a query that starts with a keyword in lower case, a colon
    and a value that the value pattern matches. *)
Lemma LANGUAGE_MATCHER_split_forward (w : pystr) (c : N) (t : pystr)
    (m : mstate) :
  w ∈ KEYWORDS → isspace c = false →
  rmatch U true value_pattern Some
    {| m_prev := Some COLON; m_rest := c :: t;
       m_groups := [Some w; None; None; None] |} = Some m →
  LANGUAGE_MATCHER_split U (w ++ COLON :: c :: t)
  = Some [] :: m_groups m ++ [Some (m_rest m)].
Proof.
  intros Hw Hc Hm. unfold LANGUAGE_MATCHER_split, re_split1.
  by rewrite (search_from_here _ _ m)
    by (by apply LANGUAGE_MATCHER_forward).
Qed.

(** The lists of a keyword in lower case. *)
Lemma keyword_lists (w : pystr) :
  w ∈ KEYWORDS →
  lower U (strip w ++ py "s") = w ++ py "s"
  ∧ parse_init !! (w ++ py "s") = Some []
  ∧ parse_init !! ((w ++ py "s") ++ py "_exact") = Some [].
Proof.
  unfold KEYWORDS. intros Hw.
  repeat apply elem_of_cons in Hw as [->|Hw];
    [..|by apply elem_of_nil in Hw];
    (split_and!; [reflexivity|..]; apply (bool_decide_unpack _); by vm_compute).
Qed.

(** A turn that leaves the empty query is the last but one, and the last
    changes nothing. *)
Lemma parse_then_stop (query : pystr) (result : gmap pystr (list pystr)) :
  parse_turn U query parse_init = Return (result, Some []) →
  parse U query = Return result.
Proof.
  intros H. pose proof (parse_turn_shrinks _ _ _ _ _ H) as Hlen.
  unfold parse. destruct (length query) as [|n]; [simpl in Hlen; lia|].
  cbn [parse_loop]. rewrite H. reflexivity.
Qed.

Lemma parse_contains_forward (w v : pystr) (c : N) (t : pystr)
    (split3 split4 : option pystr) :
  w ∈ KEYWORDS →
  LANGUAGE_MATCHER_split U (w ++ COLON :: c :: t)
  = [Some []; Some w; None; split3; split4; Some []] →
  (split3 = Some v ∧ split4 = None) ∨ (split3 = None ∧ split4 = Some v) →
  strip (remove_char BACKSLASH v) ≠ [] →
  parse U (w ++ COLON :: c :: t)
  = Return (<[w ++ py "s" := [strip (remove_char BACKSLASH v)]]> parse_init).
Proof.
  intros Hw Hsplit Hv Hne.
  destruct (keyword_lists w Hw) as (Htarget & Hl & _).
  apply parse_then_stop.
  rewrite (parse_turn_contains_value U _ parse_init [] w split3 split4 v []
             parse_init []); [by rewrite Htarget|done..|by rewrite Htarget].
Qed.
End KeywordQueries.

(** X12. A keyword in lower case, a colon and a plain value with no white
    space that does not start with a double quote: [parse] puts the value,
    rid of its backslashes, in the list of the keyword, and nothing else
    anywhere. *)
Theorem parse_keyword_plain (U : unicode_db) (w value : pystr) :
  w ∈ KEYWORDS →
  Forall (λ x, isspace x = false) value →
  head value ≠ Some QUOTE →
  remove_char BACKSLASH value ≠ [] →
  parse U (w ++ [COLON] ++ value)
  = Return (<[w ++ py "s" := [remove_char BACKSLASH value]]> parse_init).
Proof.
  intros Hw Hall Hq Hne.
  destruct value as [|c t] eqn:Hv; [done|]. rewrite <-Hv in *.
  assert (Hc : isspace c = false)
    by (rewrite Hv in Hall; by apply Forall_cons in Hall as [? _]).
  assert (Hstrip : strip (remove_char BACKSLASH value)
                   = remove_char BACKSLASH value).
  { apply strip_no_space. apply Forall_forall.
    intros x [_ Hx]%list_elem_of_filter. by rewrite Forall_forall in Hall; auto. }
  rewrite <-Hstrip. rewrite Hv at 1. cbn [app].
  apply (parse_contains_forward U w value c t None (Some value)); [done| |auto|].
  - rewrite (LANGUAGE_MATCHER_split_forward U w c t
               {| m_prev := last value; m_rest := [];
                  m_groups := [Some w; None; None; Some value] |}); [done..|].
    rewrite <-Hv. apply (value_pattern_plain U w value c t); [done| |done].
    intros ->. by rewrite Hv in Hq.
  - by rewrite Hstrip.
Qed.

Lemma parse_keyword_plain_witness :
  py "artist" ∈ KEYWORDS
  ∧ Forall (λ x, isspace x = false) (py "AC\DC")
  ∧ head (py "AC\DC") ≠ Some QUOTE
  ∧ remove_char BACKSLASH (py "AC\DC") ≠ []
  ∧ parse ucd (py "artist" ++ [COLON] ++ py "AC\DC")
    = Return (<[py "artist" ++ py "s"
                := [remove_char BACKSLASH (py "AC\DC")]]> parse_init).
Proof.
  assert (H1 : py "artist" ∈ KEYWORDS) by apply list_elem_of_here.
  assert (H2 : Forall (λ x, isspace x = false) (py "AC\DC"))
    by (by repeat constructor).
  assert (H3 : head (py "AC\DC") ≠ Some QUOTE) by (by vm_compute).
  assert (H4 : remove_char BACKSLASH (py "AC\DC") ≠ []) by (by vm_compute).
  split_and!; [done..|].
  exact (parse_keyword_plain ucd _ _ H1 H2 H3 H4).
Defined.

(** X13. A keyword in lower case, a colon and a value between double quotes,
    with no double quote and no line feed in it and not blank: [parse] puts
    the value, rid of its backslashes and stripped, in the list of the
    keyword. *)
Theorem parse_keyword_quoted (U : unicode_db) (w value : pystr) :
  w ∈ KEYWORDS →
  Forall (λ x, x ≠ 10%N ∧ x ≠ QUOTE) value →
  strip (remove_char BACKSLASH value) ≠ [] →
  parse U (w ++ [COLON] ++ dq ++ value ++ dq)
  = Return (<[w ++ py "s" := [strip (remove_char BACKSLASH value)]]>
            parse_init).
Proof.
  intros Hw Hall Hne.
  assert (Hv : value ≠ []) by (by intros ->).
  apply (parse_contains_forward U w value QUOTE (value ++ dq)
           (Some value) None); [done| |auto|done].
  rewrite (LANGUAGE_MATCHER_split_forward U w QUOTE (value ++ dq)
             {| m_prev := Some QUOTE; m_rest := [];
                m_groups := [Some w; None; Some value; None] |}); [done..|].
  apply (value_pattern_quoted U w value []); done.
Qed.

Lemma parse_keyword_quoted_witness :
  py "title" ∈ KEYWORDS
  ∧ Forall (λ x, x ≠ 10%N ∧ x ≠ QUOTE) (py " Bar Baz ")
  ∧ strip (remove_char BACKSLASH (py " Bar Baz ")) ≠ []
  ∧ parse ucd (py "title" ++ [COLON] ++ dq ++ py " Bar Baz " ++ dq)
    = Return (<[py "title" ++ py "s"
                := [strip (remove_char BACKSLASH (py " Bar Baz "))]]>
              parse_init).
Proof.
  assert (H1 : py "title" ∈ KEYWORDS)
    by (apply list_elem_of_further, list_elem_of_further, list_elem_of_here).
  assert (H2 : Forall (λ x, x ≠ 10%N ∧ x ≠ QUOTE) (py " Bar Baz "))
    by (by repeat constructor).
  assert (H3 : strip (remove_char BACKSLASH (py " Bar Baz ")) ≠ [])
    by (by vm_compute).
  split_and!; [done..|].
  exact (parse_keyword_quoted ucd _ _ H1 H2 H3).
Defined.

(** X14. A keyword in lower case, a colon and a value between doubled double
    quotes, with no double quote and no line feed in it and not blank:
    [parse] puts the value, stripped and with its backslashes kept, in the
    exact list of the keyword. *)
Theorem parse_keyword_exact (U : unicode_db) (w value : pystr) :
  w ∈ KEYWORDS →
  Forall (λ x, x ≠ 10%N ∧ x ≠ QUOTE) value →
  strip value ≠ [] →
  parse U (w ++ [COLON] ++ dq ++ dq ++ value ++ dq ++ dq)
  = Return (<[w ++ py "s_exact" := [strip value]]> parse_init).
Proof.
  intros Hw Hall Hne.
  assert (Hv : value ≠ []) by (by intros ->).
  destruct (keyword_lists U w Hw) as (Htarget & _ & Hl).
  change (w ++ [COLON] ++ dq ++ dq ++ value ++ dq ++ dq)
    with (w ++ COLON :: QUOTE :: dq ++ value ++ dq ++ dq).
  apply parse_then_stop.
  rewrite (parse_turn_exact_value U _ parse_init [] w value [] parse_init []);
    [|
     |done|done|by rewrite Htarget].
  - rewrite Htarget. by rewrite <-(assoc_L (++)).
  - rewrite (LANGUAGE_MATCHER_split_forward U w QUOTE
               (dq ++ value ++ dq ++ dq)
               {| m_prev := Some QUOTE; m_rest := [];
                  m_groups := [Some w; Some value; None; None] |}); [done..|].
    apply (value_pattern_exact U w value []); done.
Qed.

Lemma parse_keyword_exact_witness :
  py "work" ∈ KEYWORDS
  ∧ Forall (λ x, x ≠ 10%N ∧ x ≠ QUOTE) (py "Opening\Theme ")
  ∧ strip (py "Opening\Theme ") ≠ []
  ∧ parse ucd (py "work" ++ [COLON] ++ dq ++ dq ++ py "Opening\Theme "
               ++ dq ++ dq)
    = Return (<[py "work" ++ py "s_exact" := [strip (py "Opening\Theme ")]]>
              parse_init).
Proof.
  assert (H1 : py "work" ∈ KEYWORDS)
    by (apply list_elem_of_further, list_elem_of_here).
  assert (H2 : Forall (λ x, x ≠ 10%N ∧ x ≠ QUOTE) (py "Opening\Theme "))
    by (by repeat constructor).
  assert (H3 : strip (py "Opening\Theme ") ≠ []) by (by vm_compute).
  split_and!; [done..|].
  exact (parse_keyword_exact ucd _ _ H1 H2 H3).
Defined.

(** ** The list views *)

Lemma forallb_fmap {A B} (f : A → B) (p : B → bool) (l : list A) :
  forallb p (f <$> l) = forallb (λ x, p (f x)) l.
Proof.
  induction l as [|x l IH]; [done|]. rewrite fmap_cons. simpl. by rewrite IH.
Qed.

(** X15. The artist list view, for a query that is not empty and that the
    splitter cuts into tokens: one [filter] call, then the ordering by name,
    and no other call; the tokens are kept for the response; the condition
    of the filter holds on an artist exactly when the name contains every
    token. *)
Theorem ArtistListView_search
    (QueryLanguageParser_split_remaining : pystr → outcome (list pystr))
    (query_params : gmap string pystr) (query : pystr)
    (tokens : list pystr) :
  query_params !! "query" = Some query →
  query ≠ [] →
  QueryLanguageParser_split_remaining query = Return tokens →
  ∃ filter_query,
    ArtistListView_get_queryset QueryLanguageParser_split_remaining
      query_params
    = Return ([Filter filter_query; OrderByLower "name"], Some tokens)
    ∧ ∀ row, Q_holds row filter_query
             = forallb (row "name__icontains") tokens.
Proof.
  intros Hq Hne Hs. unfold ArtistListView_get_queryset. rewrite Hq.
  destruct query as [|c query]; [done|]. cbn [truthy]. rewrite Hs.
  eexists. split; [reflexivity|]. intros row.
  by rewrite foldl_and_holds, forallb_fmap.
Qed.

Lemma ArtistListView_search_witness :
  ({["query" := py "foo\ bar baz"]} : gmap string pystr) !! "query"
  = Some (py "foo\ bar baz")
  ∧ py "foo\ bar baz" ≠ []
  ∧ Return (split_remaining (py "foo\ bar baz"))
    = Return [py "foo bar"; py "baz"]
  ∧ ∃ filter_query,
      ArtistListView_get_queryset (λ q, Return (split_remaining q))
        {["query" := py "foo\ bar baz"]}
      = Return ([Filter filter_query; OrderByLower "name"],
                Some [py "foo bar"; py "baz"])
      ∧ ∀ row, Q_holds row filter_query
               = forallb (row "name__icontains") [py "foo bar"; py "baz"].
Proof.
  assert (H1 : ({["query" := py "foo\ bar baz"]} : gmap string pystr)
               !! "query" = Some (py "foo\ bar baz"))
    by apply lookup_singleton_eq.
  assert (H2 : py "foo\ bar baz" ≠ []) by done.
  assert (H3 : Return (split_remaining (py "foo\ bar baz"))
               = Return [py "foo bar"; py "baz"]) by (by vm_compute).
  split_and!; [done..|].
  exact (ArtistListView_search (λ q, Return (split_remaining q)) _ _ _
           H1 H2 H3).
Defined.

(** X16. The work list view, for a query that is not empty and that the
    splitter cuts into tokens: the tokens are kept for the response; the
    rows are made distinct and the ordering by title and subtitle comes
    last; a work, its alternative titles joined, passes the calls exactly
    when its type is the one asked for, if one is, and each token occurs in
    its title, its subtitle or the alternative title. *)
Theorem WorkListView_search
    (QueryLanguageParser_split_remaining : pystr → outcome (list pystr))
    (query_params : gmap string pystr) (query : pystr)
    (tokens : list pystr) :
  query_params !! "query" = Some query →
  query ≠ [] →
  QueryLanguageParser_split_remaining query = Return tokens →
  ∃ query_set,
    WorkListView_get_queryset QueryLanguageParser_split_remaining
      query_params
    = Return (query_set ++ [WorkDistinct;
                            WorkOrderByLower ["title"; "subtitle"]],
              Some tokens)
    ∧ (WorkDistinct ∉ query_set)
    ∧ ∀ row,
        work_passes row query_set
        = match query_params !! "type" with
          | Some work_type =>
              if truthy work_type
              then row "work_type__query_name" work_type else true
          | None => true
          end
          && forallb (λ remain,
               row "title__icontains" remain
               || row "subtitle__icontains" remain
               || row "alternative_title__title__icontains" remain) tokens.
Proof.
  intros Hq Hne Hs. unfold WorkListView_get_queryset. rewrite Hq.
  destruct query as [|c query]; [done|]. cbn [truthy]. rewrite Hs.
  cbn [bind fst snd]. eexists. split; [reflexivity|].
  assert (Hfilter : ∀ row,
    Q_holds row (foldl (λ filter_query item, filter_query &&& item) Q_empty
                   (work_group <$> tokens))
    = forallb (λ remain,
         row "title__icontains" remain || row "subtitle__icontains" remain
         || row "alternative_title__title__icontains" remain) tokens).
  { intros row. by rewrite foldl_and_holds, forallb_fmap. }
  destruct (query_params !! "type") as [work_type|];
    [destruct (truthy work_type)|]; (split; [|intros row; simpl;
      by rewrite Hfilter, ?andb_true_r]).
  - intros H. repeat apply elem_of_cons in H as [?|H]; [done..|].
    by apply elem_of_nil in H.
  - intros H. repeat apply elem_of_cons in H as [?|H]; [done..|].
    by apply elem_of_nil in H.
  - intros H. repeat apply elem_of_cons in H as [?|H]; [done..|].
    by apply elem_of_nil in H.
Qed.

Lemma WorkListView_search_witness :
  ({["query" := py "a b"]} : gmap string pystr) !! "query" = Some (py "a b")
  ∧ py "a b" ≠ []
  ∧ Return (split_remaining (py "a b")) = Return [py "a"; py "b"]
  ∧ ∃ query_set,
      WorkListView_get_queryset (λ q, Return (split_remaining q))
        {["query" := py "a b"]}
      = Return (query_set ++ [WorkDistinct;
                              WorkOrderByLower ["title"; "subtitle"]],
                Some [py "a"; py "b"])
      ∧ (WorkDistinct ∉ query_set)
      ∧ ∀ row,
          work_passes row query_set
          = match ({["query" := py "a b"]} : gmap string pystr) !! "type" with
            | Some work_type =>
                if truthy work_type
                then row "work_type__query_name" work_type else true
            | None => true
            end
            && forallb (λ remain,
                 row "title__icontains" remain
                 || row "subtitle__icontains" remain
                 || row "alternative_title__title__icontains" remain)
                 [py "a"; py "b"].
Proof.
  assert (H1 : ({["query" := py "a b"]} : gmap string pystr) !! "query"
               = Some (py "a b")) by apply lookup_singleton_eq.
  assert (H2 : py "a b" ≠ []) by done.
  assert (H3 : Return (split_remaining (py "a b"))
               = Return [py "a"; py "b"]) by (by vm_compute).
  split_and!; [done..|].
  exact (WorkListView_search (λ q, Return (split_remaining q)) _ _ _
           H1 H2 H3).
Defined.

(** X17. With the tokenizer of query_language.py for a splitter, a query
    made of white space only filters nothing in either view: the condition of
    the one [filter] call is the empty one, and the list of tokens kept for
    the response is empty. *)
Theorem list_views_blank_query (query_params : gmap string pystr)
    (query : pystr) :
  query_params !! "query" = Some query →
  query ≠ [] →
  Forall (λ c, isspace c = true) query →
  ArtistListView_get_queryset (λ q, Return (split_remaining q)) query_params
  = Return ([Filter Q_empty; OrderByLower "name"], Some [])
  ∧ ∃ query_set,
      WorkListView_get_queryset (λ q, Return (split_remaining q))
        query_params
      = Return (query_set ++ [WorkFilter Q_empty; WorkDistinct;
                              WorkOrderByLower ["title"; "subtitle"]],
                Some [])
      ∧ query_set
        = match query_params !! "type" with
          | Some work_type =>
              if truthy work_type
              then [WorkFilterKw "work_type__query_name" work_type] else []
          | None => []
          end.
Proof.
  intros Hq Hne Hblank.
  unfold ArtistListView_get_queryset, WorkListView_get_queryset. rewrite Hq.
  destruct query as [|c query]; [done|]. cbn [truthy bind].
  rewrite (split_remaining_all_space _ Hblank). split; [done|].
  destruct (query_params !! "type") as [work_type|];
    [destruct (truthy work_type)|].
  - by exists [WorkFilterKw "work_type__query_name" work_type].
  - by exists [].
  - by exists [].
Qed.

Lemma list_views_blank_query_witness :
  ({["query" := py "  "]} : gmap string pystr) !! "query" = Some (py "  ")
  ∧ py "  " ≠ []
  ∧ Forall (λ c, isspace c = true) (py "  ")
  ∧ ArtistListView_get_queryset (λ q, Return (split_remaining q))
      {["query" := py "  "]}
    = Return ([Filter Q_empty; OrderByLower "name"], Some [])
  ∧ ∃ query_set,
      WorkListView_get_queryset (λ q, Return (split_remaining q))
        {["query" := py "  "]}
      = Return (query_set ++ [WorkFilter Q_empty; WorkDistinct;
                              WorkOrderByLower ["title"; "subtitle"]],
                Some [])
      ∧ query_set
        = match ({["query" := py "  "]} : gmap string pystr) !! "type" with
          | Some work_type =>
              if truthy work_type
              then [WorkFilterKw "work_type__query_name" work_type] else []
          | None => []
          end.
Proof.
  assert (H1 : ({["query" := py "  "]} : gmap string pystr) !! "query"
               = Some (py "  ")) by apply lookup_singleton_eq.
  assert (H2 : py "  " ≠ []) by done.
  assert (H3 : Forall (λ c, isspace c = true) (py "  "))
    by (by repeat constructor).
  split_and!; [done..| |];
    apply (list_views_blank_query _ _ H1 H2 H3).
Defined.

(** X18. The calls of the song list view, whatever the parser and the
    request: the exclusion of the songs with a disabled tag, for a user who
    is neither superuser nor library manager and for no other; then [filter]
    calls only; then [distinct], when the request has a query parameter and
    only then; then the ordering by title. *)
Theorem get_queryset_calls
    (language_parser_parse : pystr → outcome parsed_query)
    (is_superuser is_library_manager : bool)
    (query_params : gmap string pystr) (query_set : list qs_call) :
  get_queryset language_parser_parse is_superuser is_library_manager
    query_params = Return query_set →
  ∃ conditions,
    query_set
    = (if is_superuser || is_library_manager then []
       else [Exclude "tags__disabled" true])
      ++ (Filter <$> conditions)
      ++ (if bool_decide (is_Some (query_params !! "query"))
          then [Distinct] else [])
      ++ [OrderByLower "title"].
Proof.
  unfold get_queryset. intros H.
  destruct (query_params !! "query") as [query|] eqn:Hq.
  - rewrite bool_decide_eq_true_2 by eauto.
    destruct (truthy query).
    + destruct (language_parser_parse query) as [res| |]; simplify_eq/=.
      exists (filter_query res :: query_list_many res).
      rewrite search_calls.
      destruct (is_superuser || is_library_manager); simpl;
        by rewrite <-?(assoc_L (++)).
    + simplify_eq/=. exists [].
      by destruct (is_superuser || is_library_manager).
  - rewrite bool_decide_eq_false_2 by (by intros [? ?]).
    simplify_eq/=. exists [].
    by destruct (is_superuser || is_library_manager).
Qed.

Lemma get_queryset_calls_witness :
  get_queryset (λ _, Return ex_two_artists) false false
    {["query" := py "x"]}
  = Return (search ex_two_artists [Exclude "tags__disabled" true]
            ++ [Distinct; OrderByLower "title"])
  ∧ ∃ conditions,
      search ex_two_artists [Exclude "tags__disabled" true]
      ++ [Distinct; OrderByLower "title"]
      = (if false || false then [] else [Exclude "tags__disabled" true])
        ++ (Filter <$> conditions)
        ++ (if bool_decide (is_Some
                 (({["query" := py "x"]} : gmap string pystr) !! "query"))
            then [Distinct] else [])
        ++ [OrderByLower "title"].
Proof.
  assert (H : get_queryset (λ _, Return ex_two_artists) false false
                {["query" := py "x"]}
              = Return (search ex_two_artists [Exclude "tags__disabled" true]
                        ++ [Distinct; OrderByLower "title"]))
    by (by vm_compute).
  split; [exact H|].
  exact (get_queryset_calls _ _ _ _ _ H).
Defined.

(** ** The playlist *)

Section PlaylistFacts.
Context (order_by_date_created : list playlist_entry → list playlist_entry).

(** The rows that [get_playing] looks at are those of [get_playlist]. *)
Lemma get_playing_rows (objects : list playlist_entry) :
  filter (λ e, was_played e = false ∧ date_played e = None) objects
  = filter (λ e, ¬ (was_played e = true ∨ is_Some (date_played e))) objects.
Proof.
  apply list_filter_iff. intros e.
  destruct (was_played e), (date_played e) as [d|]; split.
  all: try (by intros [? ?]).
  all: try (intros H; exfalso; apply H; eauto; fail).
  - intros _ [?|[? ?]]; done.
  - done.
Qed.

End PlaylistFacts.

(** X20. [get_playing] looks at the very rows of [get_playlist], the entries
    neither played nor dated: it gives nothing when the playlist is empty,
    the entry when the playlist has one entry, and raises its fault as soon
    as the playlist has two entries. *)
Theorem get_playing_playlist
    (order_by_date_created : list playlist_entry → list playlist_entry)
    (objects : list playlist_entry) :
  get_playing order_by_date_created objects
  = match get_playlist order_by_date_created objects with
    | [] => Playing None
    | [entry] => Playing (Some entry)
    | _ :: _ :: _ =>
        RuntimeError "It seems that two entries are playing at the same time"
    end.
Proof.
  unfold get_playing, get_playlist. rewrite get_playing_rows.
  by destruct (order_by_date_created _) as [|e1 [|e2 l]].
Qed.


(** ** The pool of the player errors *)

Lemma PlayerErrorsPool_add_all_ids (errors : list (pystr * pystr)) :
  ∀ (self : errors_pool) (store : list_store) (ids : list N),
    store !! ids_pool self = Some ids →
    let state := PlayerErrorsPool_add_all self errors store in
    ids_pool state.1 = ids_pool self
    ∧ count state.1 = (count self + N.of_nat (length errors))%N
    ∧ state.2 !! ids_pool self
      = Some (ids ++ ((λ i, (count self + N.of_nat i)%N)
                      <$> seq 0 (length errors))).
Proof.
  unfold PlayerErrorsPool_add_all.
  induction errors as [|error errors IH]; intros self store ids Hids; simpl.
  - split_and!; [done|lia|by rewrite app_nil_r].
  - set (self' := (PlayerErrorsPool_add self error.1 error.2 store).1).
    set (store' := (PlayerErrorsPool_add self error.1 error.2 store).2).
    destruct (IH self' store' (ids ++ [count self])) as (Hp & Hc & Hs).
    { unfold self', store'. simpl. rewrite Hids. apply lookup_insert_eq. }
    change (PlayerErrorsPool_add self error.1 error.2 store)
      with (self', store').
    split_and!.
    + by rewrite Hp.
    + rewrite Hc. unfold self'. simpl. lia.
    + change (ids_pool self) with (ids_pool self'). rewrite Hs.
      f_equal. rewrite <-(assoc_L (++)). f_equal. simpl. f_equal.
      * f_equal. lia.
      * rewrite <-fmap_S_seq, <-list_fmap_compose. apply list_fmap_ext.
        intros _ i _. unfold self'. simpl. lia.
Qed.

(** X22. The pools made without the argument [ids_pool] share one list of
    identifiers: after some errors are added to one such pool, a pool made
    anew has the identifiers of these errors in its list, while its counter
    starts from zero again. *)
Theorem PlayerErrorsPool_default_shared (errors : list (pystr * pystr))
    (store : list_store) (ids : list N) :
  store !! DEFAULT_IDS_POOL = Some ids →
  let state :=
    PlayerErrorsPool_add_all (PlayerErrorsPool_init None None) errors store in
  let pool := PlayerErrorsPool_init None None in
  state.2 !! ids_pool pool
  = Some (ids ++ (N.of_nat <$> seq 0 (length errors)))
  ∧ count pool = 0%N.
Proof.
  intros Hids.
  destruct (PlayerErrorsPool_add_all_ids errors
              (PlayerErrorsPool_init None None) store ids Hids)
    as (_ & _ & Hs).
  split; [|done]. exact Hs.
Qed.

Lemma PlayerErrorsPool_default_shared_witness :
  ({[DEFAULT_IDS_POOL := []]} : list_store) !! DEFAULT_IDS_POOL = Some []
  ∧ (PlayerErrorsPool_add_all (PlayerErrorsPool_init None None)
       [(py "song", py "not found"); (py "other", py "unreadable")]
       {[DEFAULT_IDS_POOL := []]}).2
    !! ids_pool (PlayerErrorsPool_init None None)
    = Some ([] ++ (N.of_nat <$> seq 0 2))
  ∧ count (PlayerErrorsPool_init None None) = 0%N.
Proof.
  assert (H : ({[DEFAULT_IDS_POOL := []]} : list_store) !! DEFAULT_IDS_POOL
              = Some []) by apply lookup_singleton_eq.
  split; [exact H|].
  exact (PlayerErrorsPool_default_shared
           [(py "song", py "not found"); (py "other", py "unreadable")]
           _ _ H).
Defined.
